(** * anibridge-providers: registry and dynamic loading

    A shallow embedding of [anibridge_providers/loader.py] and
    [anibridge_providers/registry.py], with the properties of the
    resolver, the provider registry and the entry-point loader. *)

From Stdlib Require Import Ascii Lia ZArith Decimal DecimalString DecimalPos DecimalZ.
From stdpp Require Import base list strings.

Local Open Scope string_scope.
Local Open Scope list_scope.
#[local] Arguments String.append : simpl nomatch.

(** ** Python values shared by both modules *)

(** Python [str] is modelled by [string]; every [ascii] stands for one
    character.  The exceptions that the two modules raise or let through: *)
Inductive PyExc : Type :=
  | ValueError (msg : string)
  | KeyError (msg : string)
  | TypeError (msg : string)
  | AttributeError (msg : string)
  | OtherException (cls msg : string)   (* any other subclass of Exception *)
  | OtherBaseException (cls : string).  (* SystemExit, KeyboardInterrupt, ... *)

(** [isinstance(e, Exception)], as tested by [except Exception]. *)
Definition is_Exception (e : PyExc) : bool :=
  match e with
  | OtherBaseException _ => false
  | _ => true
  end.

(** [isinstance(e, TypeError)], as tested by [except TypeError]. *)
Definition is_TypeError (e : PyExc) : bool :=
  match e with
  | TypeError _ => true
  | _ => false
  end.

(** ** The [str] methods the source uses *)
Module Str.

(** [c in s] for a one-character [c]. *)
Fixpoint contains (c : ascii) (s : string) : bool :=
  match s with
  | EmptyString => false
  | String a rest => if Ascii.eqb a c then true else contains c rest
  end.

(** [s.count(c)] for a one-character [c]. *)
Fixpoint count (c : ascii) (s : string) : nat :=
  match s with
  | EmptyString => 0
  | String a rest => (if Ascii.eqb a c then 1 else 0) + count c rest
  end.

(** [not s]: the truth value of a string. *)
Definition is_empty (s : string) : bool :=
  match s with
  | EmptyString => true
  | String _ _ => false
  end.

(** The [maxsplit] argument of [str.split]: [None] is the default (no
    limit), [Some n] allows at most [n] cuts. *)
Definition may_cut (maxsplit : option nat) : bool :=
  match maxsplit with
  | Some O => false
  | _ => true
  end.

Definition after_cut (maxsplit : option nat) : option nat :=
  match maxsplit with
  | Some n => Some (Nat.pred n)
  | None => None
  end.

(** The first field of [s.split(sep, maxsplit)] and the fields after it. *)
Fixpoint split_fields (sep : ascii) (maxsplit : option nat) (s : string)
  : string * list string :=
  match s with
  | EmptyString => (EmptyString, [])
  | String a rest =>
      if Ascii.eqb a sep && may_cut maxsplit then
        let '(field, fields) := split_fields sep (after_cut maxsplit) rest in
        (EmptyString, field :: fields)
      else
        let '(field, fields) := split_fields sep maxsplit rest in
        (String a field, fields)
  end.

(** [s.split(sep, maxsplit)] for a one-character separator. *)
Definition split (sep : ascii) (maxsplit : option nat) (s : string) : list string :=
  let '(field, fields) := split_fields sep maxsplit s in field :: fields.

(** [sep.join(fields)]. *)
Fixpoint join (sep : ascii) (fields : list string) : string :=
  match fields with
  | [] => EmptyString
  | [field] => field
  | field :: rest => field +:+ String sep (join sep rest)
  end.

(** [sub in s]: [sub] occurs in [s] as a contiguous run. *)
Definition occurs_in (sub s : string) : Prop :=
  exists before after, s = before +:+ sub +:+ after.

(** [str.lower] restricted to ASCII letters, the instance used to run the
    registry on concrete inputs. *)
Definition ascii_lower_char (a : ascii) : ascii :=
  let n := nat_of_ascii a in
  if (65 <=? n)%nat && (n <=? 90)%nat then ascii_of_nat (n + 32) else a.

Fixpoint ascii_lower (s : string) : string :=
  match s with
  | EmptyString => EmptyString
  | String a rest => String (ascii_lower_char a) (ascii_lower rest)
  end.

(** *** Facts about the string methods *)

Lemma append_nil_r (s : string) : s +:+ "" = s.
Proof. induction s as [|a s IH]; simpl; [reflexivity | now rewrite IH]. Qed.

Lemma append_assoc (s1 s2 s3 : string) : (s1 +:+ s2) +:+ s3 = s1 +:+ (s2 +:+ s3).
Proof. induction s1 as [|a s1 IH]; simpl; [reflexivity | now rewrite IH]. Qed.

Lemma is_empty_true (s : string) : is_empty s = true <-> s = "".
Proof. destruct s; simpl; split; intros H; congruence. Qed.

Lemma is_empty_false (s : string) : is_empty s = false <-> s <> "".
Proof. destruct s; simpl; split; intros H; congruence. Qed.

Lemma contains_app (c : ascii) (s1 s2 : string) :
  contains c (s1 +:+ s2) = contains c s1 || contains c s2.
Proof.
  induction s1 as [|a s1 IH]; simpl; [reflexivity |].
  destruct (Ascii.eqb a c); [reflexivity | exact IH].
Qed.

Lemma contains_at_sep (sep : ascii) (before after : string) :
  contains sep (before +:+ String sep after) = true.
Proof.
  rewrite contains_app. cbn [contains]. rewrite Ascii.eqb_refl. apply orb_true_r.
Qed.

Lemma count_app (c : ascii) (s1 s2 : string) :
  count c (s1 +:+ s2) = count c s1 + count c s2.
Proof. induction s1 as [|a s1 IH]; simpl; [reflexivity | rewrite IH; lia]. Qed.

Lemma contains_count (c : ascii) (s : string) :
  contains c s = false <-> count c s = 0.
Proof.
  induction s as [|a s IH]; simpl; [tauto |].
  destruct (Ascii.eqb a c); simpl; [split; intros H; [congruence | lia] | exact IH].
Qed.

(** A string that holds [sep] splits at its first occurrence. *)
Lemma contains_first (sep : ascii) (s : string) :
  contains sep s = true ->
  exists before after,
    s = before +:+ String sep after /\ contains sep before = false.
Proof.
  induction s as [|a s IH]; simpl; [congruence |].
  destruct (Ascii.eqb a sep) eqn:E.
  - intros _. apply Ascii.eqb_eq in E. subst a. exists "", s. now split.
  - intros H. destruct (IH H) as (b & r & -> & Hb).
    exists (String a b), r. simpl. now rewrite E.
Qed.

(** The first occurrence is unique. *)
Lemma first_unique (sep : ascii) (b1 r1 b2 r2 : string) :
  b1 +:+ String sep r1 = b2 +:+ String sep r2 ->
  contains sep b1 = false -> contains sep b2 = false ->
  b1 = b2 /\ r1 = r2.
Proof.
  revert b2. induction b1 as [|a b1 IH]; intros [|a2 b2]; simpl; intros E H1 H2.
  - injection E as ->. now split.
  - injection E as <- _. now rewrite Ascii.eqb_refl in H2.
  - injection E as -> _. now rewrite Ascii.eqb_refl in H1.
  - injection E as -> E.
    destruct (Ascii.eqb a2 sep); [congruence |].
    destruct (IH _ E H1 H2) as [-> ->]. now split.
Qed.

Lemma split_fields_no_cut (sep : ascii) (s : string) :
  split_fields sep (Some 0) s = (s, []).
Proof.
  induction s as [|a s IH]; simpl; [reflexivity |].
  rewrite andb_false_r, IH. reflexivity.
Qed.

Lemma split_fields_absent (sep : ascii) (maxsplit : option nat) (s : string) :
  contains sep s = false -> split_fields sep maxsplit s = (s, []).
Proof.
  induction s as [|a s IH]; simpl; [reflexivity |].
  destruct (Ascii.eqb a sep); [congruence |].
  intros H. simpl. now rewrite (IH H).
Qed.

(** [s.split(sep, 1)] cuts at the first separator only. *)
Lemma split_once (sep : ascii) (before after : string) :
  contains sep before = false ->
  split sep (Some 1) (before +:+ String sep after) = [before; after].
Proof.
  unfold split. induction before as [|a b IH]; simpl.
  - intros _. rewrite Ascii.eqb_refl. simpl. now rewrite split_fields_no_cut.
  - destruct (Ascii.eqb a sep); [congruence |]. intros H. simpl.
    specialize (IH H).
    destruct (split_fields sep (Some 1) (b +:+ String sep after)) as [f fs].
    now injection IH as -> ->.
Qed.

(** Splitting without a limit loses nothing: joining gives the string back. *)
Lemma join_split (sep : ascii) (s : string) : join sep (split sep None s) = s.
Proof.
  unfold split. induction s as [|a s IH]; simpl; [reflexivity |].
  destruct (split_fields sep None s) as [f fs].
  destruct (Ascii.eqb a sep) eqn:E; simpl.
  - apply Ascii.eqb_eq in E. subst a. now rewrite <- IH.
  - rewrite <- IH. now destruct fs.
Qed.

(** No field of an unlimited split holds the separator. *)
Lemma split_fields_clean (sep : ascii) (s : string) :
  Forall (fun field => contains sep field = false) (split sep None s).
Proof.
  unfold split. induction s as [|a s IH]; simpl.
  - now repeat constructor.
  - destruct (split_fields sep None s) as [f fs].
    destruct (Ascii.eqb a sep) eqn:E; simpl.
    + now constructor.
    + inversion IH as [|? ? Hf Hfs]; subst. constructor; [|assumption].
      simpl. now rewrite E.
Qed.

(** A field that holds a character which is not the separator is kept whole. *)
Lemma split_absent (sep : ascii) (s : string) :
  contains sep s = false -> split sep None s = [s].
Proof. intros H. unfold split. now rewrite split_fields_absent. Qed.

Lemma occurs_in_middle (a sub b : string) : occurs_in sub (a +:+ sub +:+ b).
Proof. now exists a, b. Qed.

(** The model agrees with [str.split] on the shapes the resolver meets. *)
Lemma split_examples :
  split "." None "a.b.c" = ["a"; "b"; "c"]
  /\ split "." None "a..b" = ["a"; ""; "b"]
  /\ split "." None ".a." = [""; "a"; ""]
  /\ split "." None "" = [""]
  /\ split ":" (Some 1) "pkg:a:b" = ["pkg"; "a:b"]
  /\ split ":" (Some 1) "nocolon" = ["nocolon"]
  /\ split ":" (Some 1) "mod:" = ["mod"; ""].
Proof. repeat split; reflexivity. Qed.

Lemma ascii_lower_examples :
  ascii_lower "AniList" = "anilist" /\ ascii_lower "my_NS-01" = "my_ns-01".
Proof. split; reflexivity. Qed.

(** Splitting distributes over a separator between two parts. *)
Lemma split_app_sep (sep : ascii) (s1 s2 : string) :
  split sep None (s1 +:+ String sep s2) = split sep None s1 ++ split sep None s2.
Proof.
  unfold split. induction s1 as [|a s1 IH]; simpl.
  - rewrite Ascii.eqb_refl. simpl. now destruct (split_fields sep None s2).
  - destruct (split_fields sep None (s1 +:+ String sep s2)) as [f fs].
    destruct (split_fields sep None s1) as [f1 fs1].
    destruct (split_fields sep None s2) as [f2 fs2].
    simpl in IH. injection IH as -> ->.
    now destruct (Ascii.eqb a sep).
Qed.

Lemma ascii_lower_char_idempotent (a : ascii) :
  ascii_lower_char (ascii_lower_char a) = ascii_lower_char a.
Proof.
  destruct a as [[] [] [] [] [] [] [] []]; vm_compute; reflexivity.
Qed.

Lemma ascii_lower_idempotent (s : string) :
  ascii_lower (ascii_lower s) = ascii_lower s.
Proof.
  induction s as [|a s IH]; simpl; [reflexivity |].
  now rewrite ascii_lower_char_idempotent, IH.
Qed.

End Str.

(** ** loader.py *)
Module Loader.

Definition msg_format : string :=
  "Import path must be in 'module:qualname' format".
Definition msg_required : string :=
  "Both module and attribute names are required".
Definition msg_empty_module : string :=
  "Module path cannot be empty".
Definition msg_unpack : string :=
  "not enough values to unpack (expected 2, got 1)".

(** f"Attribute '{attr}' not found while resolving '{import_path}'" *)
Definition msg_attribute (attr import_path : string) : string :=
  "Attribute '" +:+ attr +:+ "' not found while resolving '" +:+ import_path +:+ "'".

(** The invalid-reference errors: the [ValueError]s raised by the syntactic
    checks of [load_object] and [load_module]. *)
Definition invalid_reference (e : PyExc) : Prop :=
  e = ValueError msg_format \/ e = ValueError msg_required
  \/ e = ValueError msg_empty_module.

(** The attribute-not-found error naming [attr] and the reference. *)
Definition attribute_not_found (attr import_path : string) : PyExc :=
  ValueError (msg_attribute attr import_path).

Section Resolver.

(** The host runtime: its objects, [importlib.import_module] (the loaded
    module, or the exception it raised) and attribute lookup
    ([hasattr] holds exactly when [getattr] finds a value). *)
Variable Obj : Type.
Variable import_module : string -> PyExc + Obj.
Variable py_getattr : Obj -> string -> option Obj.

(** How a call ends: it returns, it raises at a [raise] statement of
    loader.py, or an exception of [importlib.import_module] passes
    through. *)
Inductive Result : Type :=
  | Returned (obj : Obj)
  | Raised (e : PyExc)
  | Propagated (e : PyExc).

Definition hasattr (obj : Obj) (attr : string) : bool :=
  match py_getattr obj attr with
  | Some _ => true
  | None => false
  end.

(** The [for attr in qualname.split(".")] loop of [load_object]. *)
Fixpoint resolve_attrs (import_path : string) (obj : Obj) (attrs : list string)
  : Result :=
  match attrs with
  | [] => Returned obj
  | attr :: rest =>
      if negb (hasattr obj attr) then
        Raised (ValueError (msg_attribute attr import_path))
      else
        match py_getattr obj attr with
        | Some obj' => resolve_attrs import_path obj' rest
        | None => Raised (AttributeError attr)
        end
  end.

(** [load_object(import_path)]: the module paths handed to
    [importlib.import_module], in order, and the result. *)
Definition load_object (import_path : string) : list string * Result :=
  if negb (Str.contains ":" import_path) then
    ([], Raised (ValueError msg_format))
  else
    match Str.split ":" (Some 1) import_path with
    | [module_path; qualname] =>
        if Str.is_empty module_path || Str.is_empty qualname then
          ([], Raised (ValueError msg_required))
        else
          ([module_path],
           match import_module module_path with
           | inl e => Propagated e
           | inr module =>
               resolve_attrs import_path module (Str.split "." None qualname)
           end)
    | _ => ([], Raised (ValueError msg_unpack))
    end.

(** [load_module(module_path)]. *)
Definition load_module (module_path : string) : list string * Result :=
  if Str.is_empty module_path then
    ([], Raised (ValueError msg_empty_module))
  else
    ([module_path],
     match import_module module_path with
     | inl e => Propagated e
     | inr module => Returned module
     end).

(** Specification side: following a path of attribute names hop by hop. *)
Inductive walk : Obj -> list string -> Obj -> Prop :=
  | walk_nil obj : walk obj [] obj
  | walk_cons obj attr obj' rest obj'' :
      py_getattr obj attr = Some obj' ->
      walk obj' rest obj'' ->
      walk obj (attr :: rest) obj''.

(** A reference is well formed when it reads [module_path:qualname] with
    both parts non-empty, [module_path] being the text before the first
    [':']. *)
Definition well_formed (import_path module_path qualname : string) : Prop :=
  import_path = module_path +:+ String ":" qualname
  /\ Str.contains ":" module_path = false
  /\ module_path <> "" /\ qualname <> "".

(** A reference is malformed when the separator is missing or one side of
    the first separator is empty. *)
Definition malformed (import_path : string) : Prop :=
  Str.contains ":" import_path = false
  \/ exists module_path qualname,
       import_path = module_path +:+ String ":" qualname
       /\ Str.contains ":" module_path = false
       /\ (module_path = "" \/ qualname = "").

(** *** The attribute walk *)

Lemma walk_functional obj attrs o1 o2 :
  walk obj attrs o1 -> walk obj attrs o2 -> o1 = o2.
Proof.
  intros H1. revert o2.
  induction H1 as [obj | obj attr obj' rest obj'' Hget _ IH]; intros o2 H2;
    inversion H2; subst; [reflexivity |].
  apply IH. congruence.
Qed.

Lemma walk_app obj pre o rest o' :
  walk obj pre o -> walk o rest o' -> walk obj (pre ++ rest)%list o'.
Proof.
  induction 1 as [obj | obj attr obj' tl obj'' Hget _ IH]; intros H; simpl;
    [assumption |].
  econstructor; [eassumption | now apply IH].
Qed.

(** Every path either resolves to the end or has a first missing hop. *)
Lemma walk_total attrs obj :
  (exists o, walk obj attrs o)
  \/ (exists pre attr post o,
        attrs = (pre ++ attr :: post)%list /\ walk obj pre o /\ py_getattr o attr = None).
Proof.
  revert obj. induction attrs as [|attr rest IH]; intros obj.
  - left. exists obj. constructor.
  - destruct (py_getattr obj attr) as [obj'|] eqn:Hget.
    + destruct (IH obj') as [[o Ho] | (pre & a & post & o & -> & Hw & Hnone)].
      * left. exists o. econstructor; eassumption.
      * right. exists (attr :: pre), a, post, o. repeat split; [|assumption].
        econstructor; eassumption.
    + right. exists [], attr, rest, obj. repeat split; [constructor | assumption].
Qed.

Lemma resolve_attrs_walk import_path obj attrs o :
  walk obj attrs o -> resolve_attrs import_path obj attrs = Returned o.
Proof.
  induction 1 as [obj | obj attr obj' rest obj'' Hget _ IH]; simpl;
    [reflexivity |].
  unfold hasattr. now rewrite Hget.
Qed.

Lemma resolve_attrs_missing import_path obj pre o attr post :
  walk obj pre o -> py_getattr o attr = None ->
  resolve_attrs import_path obj (pre ++ attr :: post)%list
  = Raised (attribute_not_found attr import_path).
Proof.
  induction 1 as [obj | obj a obj' rest obj'' Hget _ IH]; intros Hnone; simpl.
  - unfold hasattr. now rewrite Hnone.
  - unfold hasattr. rewrite Hget. simpl. now apply IH.
Qed.

(** The loop never raises anything but attribute-not-found, and only for a
    segment of the path. *)
Lemma resolve_attrs_raises import_path obj attrs e :
  resolve_attrs import_path obj attrs = Raised e ->
  exists attr, In attr attrs /\ e = attribute_not_found attr import_path.
Proof.
  destruct (walk_total attrs obj) as [[o Ho] | (pre & a & post & o & -> & Hw & Hnone)].
  - rewrite (resolve_attrs_walk import_path _ _ _ Ho). congruence.
  - rewrite (resolve_attrs_missing import_path _ _ _ _ post Hw Hnone).
    intros [= <-]. exists a. split; [|reflexivity].
    apply in_or_app. right. now left.
Qed.

Lemma resolve_attrs_not_propagated import_path obj attrs e :
  resolve_attrs import_path obj attrs <> Propagated e.
Proof.
  destruct (walk_total attrs obj) as [[o Ho] | (pre & a & post & o & -> & Hw & Hnone)].
  - now rewrite (resolve_attrs_walk import_path _ _ _ Ho).
  - now rewrite (resolve_attrs_missing import_path _ _ _ _ post Hw Hnone).
Qed.

(** *** The syntactic checks *)

Lemma attribute_not_found_valid attr import_path :
  ~ invalid_reference (attribute_not_found attr import_path).
Proof. intros [H | [H | H]]; discriminate H. Qed.

Lemma load_object_well_formed import_path module_path qualname :
  well_formed import_path module_path qualname ->
  load_object import_path
  = ([module_path],
     match import_module module_path with
     | inl e => Propagated e
     | inr module =>
         resolve_attrs import_path module (Str.split "." None qualname)
     end).
Proof.
  intros (-> & Hm & Hne & Hq). unfold load_object.
  rewrite Str.contains_at_sep. cbn [negb]. rewrite (Str.split_once _ _ _ Hm).
  apply Str.is_empty_false in Hne, Hq. now rewrite Hne, Hq.
Qed.

Lemma load_object_malformed import_path :
  malformed import_path ->
  exists msg,
    load_object import_path = ([], Raised (ValueError msg))
    /\ (msg = msg_format \/ msg = msg_required).
Proof.
  intros [H | (m & q & -> & Hm & Hempty)]; unfold load_object.
  - rewrite H. simpl. exists msg_format. now split; [|left].
  - rewrite Str.contains_at_sep. cbn [negb]. rewrite (Str.split_once _ _ _ Hm).
    exists msg_required.
    split; [|now right].
    destruct Hempty as [-> | ->]; simpl; [reflexivity |].
    now rewrite orb_true_r.
Qed.

(** Every string is either malformed or well formed, never both. *)
Lemma malformed_or_well_formed import_path :
  malformed import_path
  \/ exists module_path qualname, well_formed import_path module_path qualname.
Proof.
  destruct (Str.contains ":" import_path) eqn:Hc; [|left; now left].
  destruct (Str.contains_first _ _ Hc) as (m & q & -> & Hm).
  destruct (Str.is_empty m) eqn:Em.
  { left. right. exists m, q. apply Str.is_empty_true in Em. auto. }
  destruct (Str.is_empty q) eqn:Eq.
  { left. right. exists m, q. apply Str.is_empty_true in Eq. auto. }
  right. exists m, q. apply Str.is_empty_false in Em, Eq. now repeat split.
Qed.

Lemma well_formed_not_malformed import_path module_path qualname :
  well_formed import_path module_path qualname -> ~ malformed import_path.
Proof.
  intros (-> & Hm & Hne & Hq) [H | (m & q & E & Hm' & Hempty)].
  - rewrite Str.contains_at_sep in H. discriminate.
  - destruct (Str.first_unique _ _ _ _ _ E Hm Hm') as [-> ->].
    destruct Hempty; contradiction.
Qed.

(** *** The resolver's contract *)

(** C5. For a well-formed reference whose container loads, [load_object]
    walks the dot-separated qualified name from left to right, checking
    each segment on the object resolved so far.  The segments are exactly
    the fields of the qualified name; when every hop exists the result is
    the object at the end of the walk; when a hop is missing, the call
    raises the attribute-not-found error that names that segment and the
    original reference; and one of the two always applies, so the walk
    neither stops early nor skips a segment. *)
Theorem load_object_walks_qualname import_path module_path qualname module :
  well_formed import_path module_path qualname ->
  import_module module_path = inr module ->
  let segments := Str.split "." None qualname in
  Str.join "." segments = qualname
  /\ (forall obj,
        walk module segments obj ->
        snd (load_object import_path) = Returned obj)
  /\ (forall pre attr post obj,
        segments = (pre ++ attr :: post)%list ->
        walk module pre obj ->
        py_getattr obj attr = None ->
        snd (load_object import_path)
        = Raised (attribute_not_found attr import_path))
  /\ ((exists obj, walk module segments obj)
      \/ (exists pre attr post obj,
            segments = (pre ++ attr :: post)%list
            /\ walk module pre obj /\ py_getattr obj attr = None)).
Proof.
  intros Hwf Himp segments.
  rewrite (load_object_well_formed _ _ _ Hwf), Himp. cbn [snd].
  fold segments. split; [apply Str.join_split |].
  split; [intros obj Hw; exact (resolve_attrs_walk _ _ _ _ Hw) |].
  split; [|apply walk_total].
  intros pre attr post obj -> Hw Hnone.
  exact (resolve_attrs_missing _ _ _ _ _ _ Hw Hnone).
Qed.

(** C6. [load_object] raises an invalid-reference error exactly when the
    separator is missing or one side of it is empty, and then no container
    load was attempted; [load_module] raises one exactly when its path is
    empty.  (An exception that leaves [importlib.import_module] is
    [Propagated], whatever its class and message.) *)
Theorem invalid_reference_iff_malformed import_path module_path :
  ((exists e, snd (load_object import_path) = Raised e /\ invalid_reference e)
   <-> malformed import_path)
  /\ (malformed import_path -> fst (load_object import_path) = [])
  /\ ((exists e, snd (load_module module_path) = Raised e /\ invalid_reference e)
      <-> module_path = "")
  /\ (module_path = "" -> load_module module_path
                          = ([], Raised (ValueError msg_empty_module))).
Proof.
  split; [split |]; [| | split; [|split]].
  - intros (e & He & Hinv).
    destruct (malformed_or_well_formed import_path) as [H | (m & q & Hwf)];
      [assumption | exfalso].
    rewrite (load_object_well_formed _ _ _ Hwf) in He. cbn [snd] in He.
    destruct (import_module m) as [e' | module]; [discriminate |].
    apply resolve_attrs_raises in He. destruct He as (attr & _ & ->).
    now apply attribute_not_found_valid in Hinv.
  - intros H. destruct (load_object_malformed _ H) as (msg & -> & Hmsg).
    exists (ValueError msg). split; [reflexivity |].
    unfold invalid_reference. destruct Hmsg as [-> | ->]; auto.
  - intros H. destruct (load_object_malformed _ H) as (msg & -> & _).
    reflexivity.
  - split.
    + intros (e & He & _). unfold load_module in He.
      destruct (Str.is_empty module_path) eqn:E;
        [now apply Str.is_empty_true in E |].
      cbn [snd] in He. destruct (import_module module_path); discriminate.
    + intros ->. exists (ValueError msg_empty_module).
      split; [reflexivity |]. unfold invalid_reference. auto.
  - intros ->. reflexivity.
Qed.

(** The three malformed examples of the specification are rejected without
    a container load, and ["mod:a.b.c"] passes the syntactic checks. *)
Lemma load_object_examples :
  load_object "nocolon" = ([], Raised (ValueError msg_format))
  /\ load_object ":name" = ([], Raised (ValueError msg_required))
  /\ load_object "mod:" = ([], Raised (ValueError msg_required))
  /\ fst (load_object "mod:a.b.c") = ["mod"].
Proof. repeat split; reflexivity. Qed.

(** C10, amended.  A reference with more than one [':'] whose text before
    the first [':'] is not empty passes the syntactic checks: it is cut at
    the first [':'] only, everything after it (further [':'] included)
    is the qualified name, the container before it is loaded, and the
    only error [load_object] itself can raise is attribute-not-found on a
    segment of that qualified name.  When the qualified name has no ['.'],
    it is looked up whole, [':'] included. *)
Theorem load_object_extra_colons import_path module_path qualname :
  1 < Str.count ":" import_path ->
  import_path = module_path +:+ String ":" qualname ->
  Str.contains ":" module_path = false ->
  module_path <> "" ->
  Str.contains ":" qualname = true
  /\ Str.split ":" (Some 1) import_path = [module_path; qualname]
  /\ fst (load_object import_path) = [module_path]
  /\ (forall e,
        snd (load_object import_path) = Raised e ->
        ~ invalid_reference e
        /\ exists attr,
             In attr (Str.split "." None qualname)
             /\ e = attribute_not_found attr import_path)
  /\ (Str.contains "." qualname = false ->
      forall module,
        import_module module_path = inr module ->
        snd (load_object import_path)
        = match py_getattr module qualname with
          | Some obj => Returned obj
          | None => Raised (attribute_not_found qualname import_path)
          end).
Proof.
  intros Hcount -> Hm Hne.
  assert (Hq : Str.contains ":" qualname = true).
  { rewrite Str.count_app in Hcount. cbn [Str.count] in Hcount.
    rewrite Ascii.eqb_refl in Hcount.
    apply Str.contains_count in Hm. rewrite Hm in Hcount.
    destruct (Str.contains ":" qualname) eqn:E; [reflexivity |].
    apply Str.contains_count in E. lia. }
  assert (Hwf : well_formed (module_path +:+ String ":" qualname)
                  module_path qualname).
  { repeat split; try assumption. intros ->. discriminate Hq. }
  rewrite (load_object_well_formed _ _ _ Hwf). cbn [fst snd].
  split; [assumption |]. split; [now apply Str.split_once |].
  split; [reflexivity |]. split.
  - intros e He. destruct (import_module module_path); [discriminate |].
    apply resolve_attrs_raises in He. destruct He as (attr & Hin & ->).
    split; [apply attribute_not_found_valid | now exists attr].
  - intros Hdot module ->. rewrite (Str.split_absent _ _ Hdot).
    cbn [resolve_attrs]. unfold hasattr, attribute_not_found.
    now destruct (py_getattr module qualname).
Qed.

(** *** Further facts about the resolver *)

Lemma resolve_attrs_app import_path obj pre o rest :
  walk obj pre o ->
  resolve_attrs import_path obj (pre ++ rest) = resolve_attrs import_path o rest.
Proof.
  induction 1 as [obj | obj attr obj' tl obj'' Hget _ IH]; [reflexivity |].
  cbn [app resolve_attrs]. unfold hasattr. now rewrite Hget.
Qed.

Lemma resolve_attrs_returned import_path obj attrs o :
  resolve_attrs import_path obj attrs = Returned o -> walk obj attrs o.
Proof.
  destruct (walk_total attrs obj) as [[o' Ho] | (pre & a & post & o' & -> & Hw & Hnone)].
  - rewrite (resolve_attrs_walk import_path _ _ _ Ho). now intros [= <-].
  - now rewrite (resolve_attrs_missing import_path _ _ _ _ post Hw Hnone).
Qed.

(** The walk of a qualified name [q1.q2] is the walk of [q1] continued by
    the walk of [q2]. *)
Lemma load_object_split import_path module_path q1 q2 module o :
  well_formed import_path module_path (q1 +:+ String "." q2) ->
  import_module module_path = inr module ->
  walk module (Str.split "." None q1) o ->
  snd (load_object import_path)
  = resolve_attrs import_path o (Str.split "." None q2).
Proof.
  intros Hwf Himp Hw. rewrite (load_object_well_formed _ _ _ Hwf), Himp.
  cbn [snd]. rewrite Str.split_app_sep. now apply resolve_attrs_app.
Qed.

(** A container that fails to load: the exception of the import leaves
    [load_object] and [load_module] as it is, after the one import attempt,
    whatever the qualified name. *)
Theorem container_failure_propagates import_path module_path qualname e :
  well_formed import_path module_path qualname ->
  import_module module_path = inl e ->
  load_object import_path = ([module_path], Propagated e)
  /\ load_module module_path = ([module_path], Propagated e).
Proof.
  intros Hwf Himp. rewrite (load_object_well_formed _ _ _ Hwf), Himp.
  split; [reflexivity |]. unfold load_module.
  destruct Hwf as (_ & _ & Hne & _). apply Str.is_empty_false in Hne.
  now rewrite Hne, Himp.
Qed.

(** Resolution composes: when [module:q1] resolves to an object, resolving
    [module:q1.q2] continues from that object with the segments of [q2],
    and reports the longer reference in its errors. *)
Theorem load_object_continues module_path q1 q2 o :
  Str.contains ":" module_path = false ->
  module_path <> "" -> q1 <> "" ->
  snd (load_object (module_path +:+ String ":" q1)) = Returned o ->
  snd (load_object (module_path +:+ String ":" (q1 +:+ String "." q2)))
  = resolve_attrs (module_path +:+ String ":" (q1 +:+ String "." q2)) o
      (Str.split "." None q2).
Proof.
  intros Hm Hne Hq1 Hres.
  assert (Hwf1 : well_formed (module_path +:+ String ":" q1) module_path q1)
    by now repeat split.
  rewrite (load_object_well_formed _ _ _ Hwf1) in Hres. cbn [snd] in Hres.
  destruct (import_module module_path) as [e | module] eqn:Himp; [discriminate |].
  apply resolve_attrs_returned in Hres.
  apply (load_object_split _ module_path q1 q2 module o); try assumption.
  repeat split; try assumption. destruct q1; [contradiction | discriminate].
Qed.

(** Empty segments are not rejected by the syntactic checks: a qualified
    name that ends in ['.'] is walked to its last named segment, and then
    the attribute with the empty name is looked up there. *)
Theorem trailing_dot_looks_up_empty_name import_path module_path qualname module o :
  well_formed import_path module_path (qualname +:+ ".") ->
  import_module module_path = inr module ->
  walk module (Str.split "." None qualname) o ->
  snd (load_object import_path)
  = match py_getattr o "" with
    | Some obj => Returned obj
    | None => Raised (attribute_not_found "" import_path)
    end.
Proof.
  intros Hwf Himp Hw.
  rewrite (load_object_split _ _ _ _ _ _ Hwf Himp Hw).
  cbn. unfold hasattr, attribute_not_found.
  now destruct (py_getattr o "").
Qed.

End Resolver.

Arguments Returned {Obj} obj.
Arguments Raised {Obj} e.
Arguments Propagated {Obj} e.

(** A concrete runtime to run the resolver on: objects are finite trees of
    named attributes. *)
#[warnings="-register-all"]
Inductive PyObject : Type :=
  | PyObj (ident : string) (attrs : list (string * PyObject)).

Fixpoint assoc (attr : string) (attrs : list (string * PyObject)) : option PyObject :=
  match attrs with
  | [] => None
  | (name, value) :: rest =>
      if String.eqb name attr then Some value else assoc attr rest
  end.

Definition tree_getattr (obj : PyObject) (attr : string) : option PyObject :=
  match obj with
  | PyObj _ attrs => assoc attr attrs
  end.

Definition attr_obj : PyObject := PyObj "pkg.mod.Class.attr" [].
Definition class_obj : PyObject := PyObj "pkg.mod.Class" [("attr", attr_obj)].
Definition mod_obj : PyObject := PyObj "pkg.mod" [("Class", class_obj)].

(** The same module after [attr] was removed from [Class]. *)
Definition class_obj' : PyObject := PyObj "pkg.mod.Class" [].
Definition mod_obj' : PyObject := PyObj "pkg.mod" [("Class", class_obj')].

Definition no_module (name : string) : PyExc :=
  OtherException "ModuleNotFoundError" ("No module named '" +:+ name +:+ "'").

Definition sample_import (m : PyObject) (module_path : string) : PyExc + PyObject :=
  if String.eqb module_path "pkg.mod" then inr m
  else if String.eqb module_path "pkg" then inr (PyObj "pkg" [])
  else inl (no_module module_path).

(** *** The resolver on the sample runtime *)

(** Resolving ["pkg.mod:Class.attr"] against a module that exposes
    [Class.attr] returns that very attribute object. *)
Lemma load_object_round_trip :
  well_formed "pkg.mod:Class.attr" "pkg.mod" "Class.attr"
  /\ snd (load_object PyObject (sample_import mod_obj) tree_getattr
            "pkg.mod:Class.attr")
     = Returned attr_obj.
Proof.
  assert (Hwf : well_formed "pkg.mod:Class.attr" "pkg.mod" "Class.attr").
  { repeat split; [discriminate | discriminate]. }
  split; [exact Hwf |].
  refine (proj1 (proj2 (load_object_walks_qualname PyObject
            (sample_import mod_obj) tree_getattr _ _ _ mod_obj Hwf eq_refl))
            attr_obj _).
  apply (walk_cons _ _ mod_obj "Class" class_obj); [reflexivity |].
  apply (walk_cons _ _ class_obj "attr" attr_obj); [reflexivity |].
  apply walk_nil.
Defined.

(** Once [attr] is removed from [Class], resolving the same reference fails
    with attribute-not-found naming [attr]. *)
Lemma load_object_attr_removed :
  load_object PyObject (sample_import mod_obj') tree_getattr "pkg.mod:Class.attr"
  = (["pkg.mod"],
     Raised (ValueError
       "Attribute 'attr' not found while resolving 'pkg.mod:Class.attr'")).
Proof. reflexivity. Qed.

(** A missing intermediate segment is the one reported. *)
Lemma load_object_intermediate_missing :
  snd (load_object PyObject (sample_import mod_obj) tree_getattr
         "pkg.mod:Klass.attr")
  = Raised (attribute_not_found "Klass" "pkg.mod:Klass.attr").
Proof. reflexivity. Qed.

(** C10 as stated fails: [":a:b"] holds two [':'] and is rejected as an
    invalid reference, before any container load. *)
Lemma extra_colons_rejected :
  1 < Str.count ":" ":a:b"
  /\ load_object PyObject (sample_import mod_obj) tree_getattr ":a:b"
     = ([], Raised (ValueError msg_required))
  /\ invalid_reference (ValueError msg_required).
Proof.
  split; [simpl; lia |]. split; [reflexivity |].
  unfold invalid_reference. auto.
Qed.

(** ["pkg:a:b"] passes the syntactic checks; with [pkg] loaded, the lookup
    of the single segment ["a:b"] is what fails. *)
Lemma load_object_pkg_a_b :
  (1 < Str.count ":" "pkg:a:b" /\ "pkg:a:b" = "pkg" +:+ String ":" "a:b"
   /\ Str.contains ":" "pkg" = false /\ "pkg" <> "")
  /\ load_object PyObject (sample_import mod_obj) tree_getattr "pkg:a:b"
     = (["pkg"], Raised (attribute_not_found "a:b" "pkg:a:b")).
Proof.
  assert (H1 : 1 < Str.count ":" "pkg:a:b") by (simpl; lia).
  assert (H2 : "pkg" <> "") by discriminate.
  split; [repeat split; assumption |].
  destruct (load_object_extra_colons PyObject (sample_import mod_obj)
              tree_getattr "pkg:a:b" "pkg" "a:b" H1 eq_refl eq_refl H2)
    as (_ & _ & Hfst & _ & Hsnd).
  rewrite (surjective_pairing (load_object _ _ _ _)), Hfst.
  now rewrite (Hsnd eq_refl (PyObj "pkg" []) eq_refl).
Defined.

(** *** Further runs of the resolver on the sample runtime *)

Lemma missing_container_propagates :
  well_formed "nosuch.mod:Thing" "nosuch.mod" "Thing"
  /\ load_object PyObject (sample_import mod_obj) tree_getattr "nosuch.mod:Thing"
     = (["nosuch.mod"], Propagated (no_module "nosuch.mod")).
Proof.
  assert (Hwf : well_formed "nosuch.mod:Thing" "nosuch.mod" "Thing").
  { repeat split; [discriminate | discriminate]. }
  split; [exact Hwf |].
  exact (proj1 (container_failure_propagates PyObject (sample_import mod_obj)
                  tree_getattr _ _ _ (no_module "nosuch.mod") Hwf eq_refl)).
Defined.

Lemma class_then_attr :
  snd (load_object PyObject (sample_import mod_obj) tree_getattr "pkg.mod:Class")
  = Returned class_obj
  /\ snd (load_object PyObject (sample_import mod_obj) tree_getattr
            "pkg.mod:Class.attr")
     = resolve_attrs PyObject tree_getattr "pkg.mod:Class.attr" class_obj ["attr"].
Proof.
  split; [reflexivity |].
  refine (load_object_continues PyObject (sample_import mod_obj) tree_getattr
            "pkg.mod" "Class" "attr" class_obj eq_refl _ _ eq_refl);
    discriminate.
Defined.

Lemma trailing_dot_on_class :
  well_formed "pkg.mod:Class." "pkg.mod" ("Class" +:+ ".")
  /\ snd (load_object PyObject (sample_import mod_obj) tree_getattr "pkg.mod:Class.")
     = Raised (attribute_not_found "" "pkg.mod:Class.").
Proof.
  assert (Hwf : well_formed "pkg.mod:Class." "pkg.mod" ("Class" +:+ ".")).
  { repeat split; [discriminate | discriminate]. }
  split; [exact Hwf |].
  refine (trailing_dot_looks_up_empty_name PyObject (sample_import mod_obj)
            tree_getattr _ _ "Class" mod_obj class_obj Hwf eq_refl _).
  apply (walk_cons _ _ mod_obj "Class" class_obj); [reflexivity | apply walk_nil].
Defined.

End Loader.

(** ** The insertion-ordered [dict] *)
Module Dict.

(** A Python [dict]: its items in insertion order. *)
Abbreviation dict K V := (list (K * V)) (only parsing).

Section Dict.

Context {K V : Type} `{EqDecision K}.

(** [d.get(key)] *)
Fixpoint get (d : dict K V) (key : K) : option V :=
  match d with
  | [] => None
  | (k, v) :: rest => if decide (k = key) then Some v else get rest key
  end.

(** [d[key] = value]: the value of a key that is present is replaced in
    place, a new key goes to the end. *)
Fixpoint setitem (d : dict K V) (key : K) (value : V) : dict K V :=
  match d with
  | [] => [(key, value)]
  | (k, v) :: rest =>
      if decide (k = key) then (k, value) :: rest
      else (k, v) :: setitem rest key value
  end.

(** [list(d.keys())] and [list(d.values())] *)
Definition keys (d : dict K V) : list K := d.*1.
Definition values (d : dict K V) : list V := d.*2.

(** What the hash table guarantees: no key is held twice. *)
Definition well_formed (d : dict K V) : Prop := NoDup (keys d).

Lemma get_setitem (d : dict K V) (key : K) (value : V) :
  get (setitem d key value) key = Some value.
Proof.
  induction d as [|[k v] d IH]; simpl.
  - now rewrite decide_True.
  - destruct (decide (k = key)) as [->|Hne]; simpl.
    + now rewrite decide_True.
    + now rewrite decide_False.
Qed.

Lemma get_setitem_ne (d : dict K V) (key key' : K) (value : V) :
  key <> key' -> get (setitem d key value) key' = get d key'.
Proof.
  intros Hne. induction d as [|[k v] d IH]; simpl.
  - now rewrite decide_False.
  - destruct (decide (k = key)) as [->|Hk]; simpl.
    + now rewrite !decide_False.
    + now rewrite IH.
Qed.

Lemma get_None (d : dict K V) (key : K) : get d key = None <-> key ∉ keys d.
Proof.
  unfold keys. induction d as [|[k v] d IH]; simpl.
  - split; [intros _; apply not_elem_of_nil | reflexivity].
  - rewrite not_elem_of_cons. destruct (decide (k = key)) as [->|Hk].
    + split; [discriminate | intros [H _]; contradiction].
    + rewrite IH. split; [intros H; split; [intros E; now symmetry in E | exact H] |].
      intros [_ H]. exact H.
Qed.

Lemma keys_setitem_present (d : dict K V) (key : K) (value : V) :
  key ∈ keys d -> keys (setitem d key value) = keys d.
Proof.
  unfold keys. induction d as [|[k v] d IH]; simpl; intros Hin.
  - now apply elem_of_nil in Hin.
  - destruct (decide (k = key)) as [->|Hk]; simpl; [reflexivity |].
    f_equal. apply IH. apply elem_of_cons in Hin.
    destruct Hin as [E | Hin]; [now symmetry in E | exact Hin].
Qed.

Lemma keys_setitem_absent (d : dict K V) (key : K) (value : V) :
  key ∉ keys d -> keys (setitem d key value) = keys d ++ [key].
Proof.
  unfold keys. induction d as [|[k v] d IH]; simpl; intros Hin; [reflexivity |].
  apply not_elem_of_cons in Hin. destruct Hin as [Hne Hin].
  rewrite decide_False by (intros E; now symmetry in E).
  rewrite fmap_cons. cbn [fst app]. f_equal. now apply IH.
Qed.

Lemma length_keys (d : dict K V) : length (keys d) = length d.
Proof. unfold keys. apply length_fmap. Qed.

Lemma length_values (d : dict K V) : length (values d) = length d.
Proof. unfold values. apply length_fmap. Qed.

(** Assigning to a key that is present does not change the size. *)
Lemma length_setitem_present (d : dict K V) (key : K) (value : V) :
  key ∈ keys d -> length (setitem d key value) = length d.
Proof.
  intros Hin. rewrite <- !length_keys. now rewrite keys_setitem_present.
Qed.

Lemma elem_of_keys_setitem (d : dict K V) (key : K) (value : V) :
  key ∈ keys (setitem d key value).
Proof.
  destruct (decide (key ∈ keys d)) as [Hin | Hout].
  - now rewrite keys_setitem_present.
  - rewrite keys_setitem_absent by assumption. apply elem_of_app. right.
    apply list_elem_of_singleton. reflexivity.
Qed.

(** Assignment keeps the keys distinct. *)
Lemma well_formed_setitem (d : dict K V) (key : K) (value : V) :
  well_formed d -> well_formed (setitem d key value).
Proof.
  unfold well_formed. intros Hnd.
  destruct (decide (key ∈ keys d)) as [Hin | Hout].
  - now rewrite keys_setitem_present.
  - rewrite keys_setitem_absent by assumption.
    apply NoDup_app. split; [assumption |]. split.
    + intros k Hk Hk'. apply list_elem_of_singleton in Hk'. now subst.
    + apply NoDup_singleton.
Qed.

Lemma items_at_absent_key (d : dict K V) (key : K) :
  key ∉ keys d -> filter (fun item => item.1 = key) d = [].
Proof.
  unfold keys. induction d as [|[k v] d IH]; intros Hout; [apply filter_nil |].
  rewrite fmap_cons in Hout. cbn [fst] in Hout.
  apply not_elem_of_cons in Hout. destruct Hout as [Hne Hout].
  rewrite filter_cons_False by (cbn [fst]; intros E; now symmetry in E).
  now apply IH.
Qed.

(** The items held under [key] after an assignment: exactly the new one. *)
Lemma items_at_key_setitem (d : dict K V) (key : K) (value : V) :
  well_formed d ->
  filter (fun item => item.1 = key) (setitem d key value) = [(key, value)].
Proof.
  unfold well_formed, keys. induction d as [|[k v] d IH]; intros Hnd;
    cbn [setitem].
  - rewrite filter_cons_True by reflexivity. reflexivity.
  - rewrite fmap_cons in Hnd. cbn [fst] in Hnd.
    apply NoDup_cons in Hnd. destruct Hnd as [Hk Hnd].
    destruct (decide (k = key)) as [->|Hne].
    + rewrite filter_cons_True by reflexivity. f_equal.
      now apply items_at_absent_key.
    + rewrite filter_cons_False by (cbn [fst]; congruence). now apply IH.
Qed.

(** In a well-formed dict at most one item is held under any key. *)
Lemma items_at_key_le_1 (d : dict K V) (key : K) :
  well_formed d -> length (filter (fun item => item.1 = key) d) <= 1.
Proof.
  unfold well_formed, keys. induction d as [|[k v] d IH]; intros Hnd;
    [rewrite filter_nil; simpl; lia |].
  rewrite fmap_cons in Hnd. cbn [fst] in Hnd.
  apply NoDup_cons in Hnd. destruct Hnd as [Hk Hnd].
  destruct (decide (k = key)) as [->|Hne].
  - rewrite filter_cons_True by reflexivity.
    rewrite items_at_absent_key by assumption. simpl. lia.
  - rewrite filter_cons_False by (cbn [fst]; congruence). now apply IH.
Qed.

(** An assignment changes no value but the one under its key. *)
Lemma setitem_elem_of (d : dict K V) (key : K) (value : V) (item : K * V) :
  item ∈ setitem d key value -> item = (key, value) \/ item ∈ d.
Proof.
  induction d as [|[k v] d IH]; simpl.
  - intros H. apply list_elem_of_singleton in H. now left.
  - destruct (decide (k = key)) as [->|Hne]; rewrite !elem_of_cons.
    + intros [-> | H]; auto.
    + intros [-> | H]; [auto | destruct (IH H); auto].
Qed.

(** A new key goes to the end of the values. *)
Lemma values_setitem_absent (d : dict K V) (key : K) (value : V) :
  key ∉ keys d -> values (setitem d key value) = values d ++ [value].
Proof.
  unfold keys, values. induction d as [|[k v] d IH]; intros Hout; [reflexivity |].
  rewrite fmap_cons in Hout. cbn [fst] in Hout.
  apply not_elem_of_cons in Hout. destruct Hout as [Hne Hout].
  cbn [setitem]. rewrite decide_False by (intros E; now symmetry in E).
  rewrite !fmap_cons. cbn [snd app]. f_equal. now apply IH.
Qed.

(** A key that is present keeps its place: only its value changes. *)
Lemma setitem_present_at (d : dict K V) (i : nat) (key : K) (old value : V) :
  well_formed d -> d !! i = Some (key, old) ->
  setitem d key value = <[i := (key, value)]> d.
Proof.
  unfold well_formed, keys. revert i.
  induction d as [|[k v] d IH]; intros i Hnd Hi; [discriminate |].
  rewrite fmap_cons in Hnd. cbn [fst] in Hnd.
  apply NoDup_cons in Hnd. destruct Hnd as [Hk Hnd]. cbn [setitem].
  destruct i as [|i]; cbn in Hi.
  - injection Hi as -> ->. now rewrite decide_True.
  - destruct (decide (k = key)) as [->|Hne].
    + exfalso. apply Hk. apply list_elem_of_fmap. exists (key, old).
      split; [reflexivity |]. apply list_elem_of_lookup. now exists i.
    + cbn. f_equal. now apply IH.
Qed.

Lemma get_Some_elem_of (d : dict K V) (key : K) (value : V) :
  get d key = Some value -> (key, value) ∈ d.
Proof.
  induction d as [|[k v] d IH]; cbn [get]; [discriminate |].
  destruct (decide (k = key)) as [->|Hne].
  - intros [= ->]. apply list_elem_of_here.
  - intros H. apply list_elem_of_further. now apply IH.
Qed.

Lemma elem_of_get (d : dict K V) (key : K) (value : V) :
  well_formed d -> (key, value) ∈ d -> get d key = Some value.
Proof.
  unfold well_formed, keys. induction d as [|[k v] d IH]; intros Hnd Hin.
  - now apply elem_of_nil in Hin.
  - rewrite fmap_cons in Hnd. cbn [fst] in Hnd.
    apply NoDup_cons in Hnd. destruct Hnd as [Hk Hnd]. cbn [get].
    apply elem_of_cons in Hin. destruct Hin as [[= -> ->] | Hin].
    + now rewrite decide_True.
    + destruct (decide (k = key)) as [->|Hne]; [|now apply IH].
      exfalso. apply Hk. apply list_elem_of_fmap. now exists (key, value).
Qed.

End Dict.

End Dict.

(** ** registry.py *)
Module Registry.

(** [class ProviderKind(str, Enum)] *)
Inductive ProviderKind : Type :=
  | LIBRARY
  | LIST.

#[global] Instance ProviderKind_eq_dec : EqDecision ProviderKind.
Proof. solve_decision. Defined.

(** [kind.value] *)
Definition value (kind : ProviderKind) : string :=
  match kind with
  | LIBRARY => "library"
  | LIST => "list"
  end.

(** f"Provider '{namespace}' of kind '{kind.value}' is not registered" *)
Definition msg_not_registered (namespace : string) (kind : ProviderKind) : string :=
  "Provider '" +:+ namespace +:+ "' of kind '" +:+ value kind +:+ "' is not registered".

Definition ENTRY_POINT_GROUP : string := "anibridge.providers".

(** What [_LOG] is asked to record: [_LOG.exception(msg)] and
    [_LOG.warning(msg, args...)]. *)
Inductive LogCall : Type :=
  | LogException (msg : string)
  | LogWarning (msg : string) (args : list string).

Definition is_failure (c : LogCall) : bool :=
  match c with
  | LogException _ => true
  | LogWarning _ _ => false
  end.

Definition is_warning (c : LogCall) : bool := negb (is_failure c).

(** How a statement ends: normally, or by an exception on its way out. *)
Inductive Completion : Type :=
  | Normal
  | Throws (e : PyExc).

Section Registry.

(** [Cls] stands for references to provider classes, [lower] for
    [str.lower]. *)
Context {Cls : Type}.
Variable lower : string -> string.

(** *** ProviderDescriptor *)

Record ProviderDescriptor : Type := mkDescriptor {
  namespace : string;
  kind : ProviderKind;
  provider_cls : Cls
}.

(** [ProviderDescriptor(namespace=..., kind=..., provider_cls=...)]: the
    generated [__init__] followed by [__post_init__]. *)
Definition new_descriptor (namespace : string) (kind : ProviderKind)
    (provider_cls : Cls) : ProviderDescriptor :=
  mkDescriptor (lower namespace) kind provider_cls.

(** *** ProviderRegistry *)

Record ProviderRegistry : Type := mkRegistry {
  _providers : Dict.dict (ProviderKind * string) ProviderDescriptor
}.

(** [ProviderRegistry()] *)
Definition new_registry : ProviderRegistry := mkRegistry [].

Definition key_of (descriptor : ProviderDescriptor) : ProviderKind * string :=
  (kind descriptor, namespace descriptor).

(** [self.register(descriptor)]: the returned descriptor and the new
    state of [self]. *)
Definition register (self : ProviderRegistry) (descriptor : ProviderDescriptor)
  : ProviderDescriptor * ProviderRegistry :=
  let key := (kind descriptor, namespace descriptor) in
  (descriptor, mkRegistry (Dict.setitem (_providers self) key descriptor)).

(** [self.get(kind, namespace)] *)
Definition get (self : ProviderRegistry) (kind : ProviderKind) (namespace : string)
  : option ProviderDescriptor :=
  Dict.get (_providers self) (kind, lower namespace).

(** [self.require(kind, namespace)]: the [KeyError] raised, or the
    descriptor returned. *)
Definition require (self : ProviderRegistry) (kind : ProviderKind)
    (namespace : string) : PyExc + ProviderDescriptor :=
  match get self kind namespace with
  | None => inl (KeyError (msg_not_registered namespace kind))
  | Some descriptor => inr descriptor
  end.

(** [self.available()] *)
Definition available (self : ProviderRegistry) : list ProviderDescriptor :=
  Dict.values (_providers self).

(** The registry states a program can build: a fresh registry and what
    [register] makes of it. *)
Inductive reachable : ProviderRegistry -> Prop :=
  | reachable_new : reachable new_registry
  | reachable_register self descriptor :
      reachable self -> reachable (snd (register self descriptor)).

(** The descriptors of [available()] that are visible at a key. *)
Definition visible_at (self : ProviderRegistry) (key : ProviderKind * string)
  : list ProviderDescriptor :=
  filter (fun descriptor => key_of descriptor = key) (available self).

(** *** The global registry *)

(** The interpreter state the module works on: the [ProviderRegistry]
    objects created so far (a reference is an index into [instances]) and
    the module global [_GLOBAL_REGISTRY] ([None] until first use). *)
Record Store : Type := mkStore {
  instances : list ProviderRegistry;
  _GLOBAL_REGISTRY : option nat
}.

Definition initial_store : Store := mkStore [] None.

(** [get_global_registry()]: the reference returned, and the store. *)
Definition get_global_registry (s : Store) : nat * Store :=
  match _GLOBAL_REGISTRY s with
  | None =>
      let ref := length (instances s) in
      (ref, mkStore (instances s ++ [new_registry]) (Some ref))
  | Some ref => (ref, s)
  end.

(** [registry.register(descriptor)] through a reference. *)
Definition register_at (ref : nat) (descriptor : ProviderDescriptor) (s : Store)
  : Store :=
  match instances s !! ref with
  | Some self =>
      mkStore (<[ref := snd (register self descriptor)]> (instances s))
              (_GLOBAL_REGISTRY s)
  | None => s
  end.

(** [_register_kind(kind, namespace, provider_cls)]; it returns
    [provider_cls]. *)
Definition _register_kind (kind : ProviderKind) (namespace : string)
    (provider_cls : Cls) (s : Store) : Store :=
  let descriptor := new_descriptor namespace kind provider_cls in
  let '(ref, s1) := get_global_registry s in
  register_at ref descriptor s1.

(** [register_library_provider(namespace)(cls)] and
    [register_list_provider(namespace)(cls)] *)
Definition register_library_provider (namespace : string) (cls : Cls)
  : Store -> Store :=
  _register_kind LIBRARY namespace cls.

Definition register_list_provider (namespace : string) (cls : Cls)
  : Store -> Store :=
  _register_kind LIST namespace cls.

(** The calls a client can make on the module and on registry references. *)
Inductive Call : Type :=
  | CallGetGlobalRegistry
  | CallRegisterLibraryProvider (namespace : string) (cls : Cls)
  | CallRegisterListProvider (namespace : string) (cls : Cls)
  | CallRegister (ref : nat) (descriptor : ProviderDescriptor)
  | CallGet (ref : nat) (kind : ProviderKind) (namespace : string)
  | CallRequire (ref : nat) (kind : ProviderKind) (namespace : string)
  | CallAvailable (ref : nat).

(** One call: the reference it hands out when it is the accessor, and
    the store after it.  The three readers leave the store as it is. *)
Definition run_call (c : Call) (s : Store) : option nat * Store :=
  match c with
  | CallGetGlobalRegistry =>
      let '(ref, s') := get_global_registry s in (Some ref, s')
  | CallRegisterLibraryProvider namespace cls =>
      (None, register_library_provider namespace cls s)
  | CallRegisterListProvider namespace cls =>
      (None, register_list_provider namespace cls s)
  | CallRegister ref descriptor => (None, register_at ref descriptor s)
  | CallGet _ _ _ | CallRequire _ _ _ | CallAvailable _ => (None, s)
  end.

(** A sequence of calls: the references the accessor handed out, in
    order, and the final store. *)
Fixpoint run_calls (cs : list Call) (s : Store) : list nat * Store :=
  match cs with
  | [] => ([], s)
  | c :: rest =>
      let '(r, s1) := run_call c s in
      let '(refs, s2) := run_calls rest s1 in
      (match r with Some ref => ref :: refs | None => refs end, s2)
  end.

(** *** load_entry_points *)

(** Code of a plugin, run against the store: how it ends and the store
    it leaves. *)
Definition Code : Type := Store -> Completion * Store.

(** What a callable does when called as [obj(registry)] ([Some ref]) or as
    [obj()] ([None]). *)
Definition Behaviour : Type := option nat -> Code.

(** Attribute values the loader inspects. *)
Inductive PyValue : Type :=
  | VStr (s : string)
  | VKind (k : ProviderKind)
  | VNone
  | VOther (repr : string).

(** A class object: its reference, its name, the class attributes
    [NAMESPACE] and [PROVIDER_KIND] when it has them, and what calling the
    class (constructing an instance) does. *)
Record ClassObject : Type := mkClass {
  cls_ref : Cls;
  cls_name : string;
  cls_NAMESPACE : option PyValue;
  cls_PROVIDER_KIND : option PyValue;
  cls_construct : Behaviour
}.

(** The objects an entry point can load to: a callable that is not a
    class (a function, a bound method, an instance with [__call__]), a
    class, or anything else. *)
Inductive LoadedObject : Type :=
  | PyCallable (name : string) (call : Behaviour)
  | PyClass (c : ClassObject)
  | PyOther (repr : string).

(** [callable(obj)]: every class is callable, calling it constructs an
    instance. *)
Definition callable (obj : LoadedObject) : bool :=
  match obj with
  | PyCallable _ _ => true
  | PyClass _ => true
  | PyOther _ => false
  end.

(** [isinstance(obj, type)] *)
Definition isinstance_type (obj : LoadedObject) : bool :=
  match obj with
  | PyClass _ => true
  | _ => false
  end.

(** Calling [obj] with the registry or with no argument. *)
Definition py_call (obj : LoadedObject) (arg : option nat) : Code :=
  match obj with
  | PyCallable _ call => call arg
  | PyClass c => cls_construct c arg
  | PyOther repr =>
      fun s => (Throws (TypeError ("'" +:+ repr +:+ "' object is not callable")), s)
  end.

(** [getattr(obj, name, fallback)] for the two names the loader reads. *)
Definition getattr (obj : LoadedObject) (name : string) (fallback : PyValue)
  : PyValue :=
  match obj with
  | PyClass c =>
      if String.eqb name "NAMESPACE" then default fallback (cls_NAMESPACE c)
      else if String.eqb name "PROVIDER_KIND" then
        default fallback (cls_PROVIDER_KIND c)
      else fallback
  | _ => fallback
  end.

Definition as_class (obj : LoadedObject) : option ClassObject :=
  match obj with
  | PyClass c => Some c
  | _ => None
  end.

(** [str(obj)] and [repr(obj)], as the log messages show them. *)
Definition obj_repr (obj : LoadedObject) : string :=
  match obj with
  | PyCallable name _ => "<function " +:+ name +:+ ">"
  | PyClass c => "<class '" +:+ cls_name c +:+ "'>"
  | PyOther repr => repr
  end.

(** An entry point of the selected group: its declared name, its [str],
    and what [entry_point.load()] does: it raises or returns the loaded
    object, and the import may have run registration code on the way. *)
Record EntryPoint : Type := mkEntryPoint {
  ep_name : string;
  ep_str : string;
  ep_load : Store -> (PyExc + LoadedObject) * Store
}.

Definition msg_failed (entry_point : EntryPoint) : string :=
  "Failed to load provider entry point '" +:+ ep_str entry_point +:+ "'".

Definition msg_missing_kind (obj : LoadedObject) : string :=
  "Provider class '" +:+ obj_repr obj +:+ "' missing PROVIDER_KIND; skipping".

Definition msg_unsupported (entry_point : EntryPoint) (obj : LoadedObject)
  : string :=
  "Entry point '" +:+ ep_str entry_point +:+ "' returned unsupported object "
  +:+ obj_repr obj.

(** [namespace.lower()] inside [ProviderDescriptor.__post_init__] needs a
    [str]; a [ProviderKind] member is one. *)
Definition as_str (v : PyValue) : option string :=
  match v with
  | VStr s => Some s
  | VKind k => Some (value k)
  | _ => None
  end.

(** What one run leaves behind: how it ended, the store, and the calls
    made on [_LOG], in order. *)
Record Outcome : Type := mkOutcome {
  completion : Completion;
  store_after : Store;
  logged : list LogCall
}.

(** The body of the [for entry_point in selected] loop. *)
Definition load_one (entry_point : EntryPoint) (s : Store) : Outcome :=
  match ep_load entry_point s with
  | (inl e, s1) =>
      (* except Exception: log and continue *)
      if is_Exception e then
        mkOutcome Normal s1 [LogException (msg_failed entry_point)]
      else mkOutcome (Throws e) s1 []
  | (inr obj, s1) =>
      if callable obj then
        let '(registry, s2) := get_global_registry s1 in
        match py_call obj (Some registry) s2 with
        | (Normal, s3) => mkOutcome Normal s3 []
        | (Throws e, s3) =>
            (* except TypeError: obj() *)
            if is_TypeError e then
              let '(c, s4) := py_call obj None s3 in mkOutcome c s4 []
            else mkOutcome (Throws e) s3 []
        end
      else
        match as_class obj with
        | Some c =>
            (* elif isinstance(obj, type) *)
            let namespace := getattr obj "NAMESPACE" (VStr (ep_name entry_point)) in
            let kind_value := getattr obj "PROVIDER_KIND" VNone in
            match kind_value with
            | VKind k =>
                match as_str namespace with
                | Some ns =>
                    mkOutcome Normal (_register_kind k ns (cls_ref c) s1) []
                | None =>
                    mkOutcome
                      (Throws (AttributeError "object has no attribute 'lower'"))
                      s1 []
                end
            | _ =>
                mkOutcome Normal s1 [LogWarning (msg_missing_kind obj) []]
            end
        | None =>
            mkOutcome Normal s1
              [LogWarning (msg_unsupported entry_point obj)
                 [ep_str entry_point; obj_repr obj]]
        end
  end.

(** [load_entry_points(group)], from the entry points [selected] for the
    group on: the loop, left at the first exception that escapes its
    body. *)
Fixpoint load_entry_points (selected : list EntryPoint) (s : Store) : Outcome :=
  match selected with
  | [] => mkOutcome Normal s []
  | entry_point :: rest =>
      let o := load_one entry_point s in
      match completion o with
      | Normal =>
          let o' := load_entry_points rest (store_after o) in
          mkOutcome (completion o') (store_after o') (logged o ++ logged o')
      | Throws _ => o
      end
  end.

(** The failures and the warnings among the calls on [_LOG]. *)
Definition failures (calls : list LogCall) : nat :=
  length (List.filter is_failure calls).

Definition warnings (calls : list LogCall) : nat :=
  length (List.filter is_warning calls).

(** An entry is processed quietly in [s] when its load returns an object
    and no exception leaves the loop body. *)
Definition quiet (entry_point : EntryPoint) (s : Store) : Prop :=
  (exists obj s1, ep_load entry_point s = (inr obj, s1))
  /\ completion (load_one entry_point s) = Normal.

(** All entries of a run are processed quietly, each in the store its
    predecessors left. *)
Fixpoint all_quiet (selected : list EntryPoint) (s : Store) : Prop :=
  match selected with
  | [] => True
  | entry_point :: rest =>
      quiet entry_point s
      /\ all_quiet rest (store_after (load_one entry_point s))
  end.

(** The global registry as a client sees it after a run. *)
Definition global_registry (s : Store) : option ProviderRegistry :=
  match _GLOBAL_REGISTRY s with
  | Some ref => instances s !! ref
  | None => None
  end.

(** *** Facts about the registry *)

(** The invariant of reachable registries: keys are distinct and every
    descriptor sits under its own (kind, namespace). *)
Definition consistent (self : ProviderRegistry) : Prop :=
  Dict.well_formed (_providers self)
  /\ Forall (fun item => item.1 = key_of item.2) (_providers self).

Lemma consistent_new : consistent new_registry.
Proof. split; [apply NoDup_nil_2 | apply Forall_nil_2]. Qed.

Lemma consistent_register self descriptor :
  consistent self -> consistent (snd (register self descriptor)).
Proof.
  intros [Hwf Hkeys]. split; cbn [register snd _providers].
  - now apply Dict.well_formed_setitem.
  - apply Forall_forall. intros item Hin.
    apply Dict.setitem_elem_of in Hin. destruct Hin as [-> | Hin];
      [reflexivity |].
    rewrite Forall_forall in Hkeys. now apply Hkeys.
Qed.

Lemma reachable_consistent self : reachable self -> consistent self.
Proof.
  induction 1 as [| self descriptor _ IH];
    [apply consistent_new | now apply consistent_register].
Qed.

(** Under the invariant, the descriptors visible at a key are the values
    the dict holds under that key. *)
Lemma visible_at_items self key :
  Forall (fun item => item.1 = key_of item.2) (_providers self) ->
  visible_at self key
  = (filter (fun item => item.1 = key) (_providers self)).*2.
Proof.
  unfold visible_at, available, Dict.values.
  induction (_providers self) as [|[k d] items IH]; intros Hkeys;
    [reflexivity |].
  apply Forall_cons in Hkeys. destruct Hkeys as [Hk Hkeys]. cbn [fst snd] in Hk.
  rewrite fmap_cons. cbn [snd].
  destruct (decide (k = key)) as [E | E].
  - rewrite !filter_cons_True by (cbn [fst]; congruence).
    rewrite fmap_cons. cbn [snd]. now rewrite IH.
  - rewrite !filter_cons_False by (cbn [fst]; congruence). now apply IH.
Qed.

Lemma at_most_one_visible self key :
  consistent self -> length (visible_at self key) <= 1.
Proof.
  intros [Hwf Hkeys]. rewrite visible_at_items by assumption.
  rewrite length_fmap. now apply Dict.items_at_key_le_1.
Qed.

(** C1. Registering the descriptor built from a kind, a namespace and a
    class, then looking the kind up under a namespace that lowercases to
    the same string, returns the descriptor with that kind, that class and
    the lowercased namespace, whatever the registry held before. *)
Theorem register_then_get self kind namespace provider_cls lookup :
  lower lookup = lower namespace ->
  let descriptor := new_descriptor namespace kind provider_cls in
  fst (register self descriptor) = descriptor
  /\ get (snd (register self descriptor)) kind lookup
     = Some (mkDescriptor (lower namespace) kind provider_cls)
  /\ get (snd (register self descriptor)) kind namespace
     = Some (mkDescriptor (lower namespace) kind provider_cls).
Proof.
  intros Hcase descriptor. split; [reflexivity |].
  unfold get, register, descriptor, new_descriptor. simpl. rewrite Hcase.
  split; apply Dict.get_setitem.
Qed.

(** C2. In every reachable registry, a second registration at the same
    (kind, namespace) returns normally and leaves exactly one descriptor
    visible at that key, the second one; the length of [available()] is
    what it was after the first registration; and at most one descriptor
    is visible at any key before, between and after. *)
Theorem register_twice_last_wins self first second :
  reachable self ->
  key_of first = key_of second ->
  let r1 := snd (register self first) in
  let r2 := snd (register r1 second) in
  fst (register r1 second) = second
  /\ visible_at r2 (key_of second) = [second]
  /\ Dict.get (_providers r2) (key_of second) = Some second
  /\ length (available r2) = length (available r1)
  /\ (forall key,
        length (visible_at self key) <= 1
        /\ length (visible_at r1 key) <= 1
        /\ length (visible_at r2 key) <= 1).
Proof.
  intros Hreach Hkey r1 r2.
  pose proof (reachable_consistent _ Hreach) as Hself.
  pose proof (consistent_register _ first Hself) as H1. fold r1 in H1.
  pose proof (consistent_register _ second H1) as H2. fold r2 in H2.
  split; [reflexivity |]. split; [|split; [|split]].
  - rewrite visible_at_items by apply H2.
    unfold r2, register. cbn [snd _providers]. fold (key_of second).
    rewrite Dict.items_at_key_setitem by apply H1. reflexivity.
  - unfold r2, register. cbn [snd _providers]. apply Dict.get_setitem.
  - unfold available. rewrite !Dict.length_values.
    unfold r2, register at 1. cbn [snd _providers]. fold (key_of second).
    apply Dict.length_setitem_present. rewrite <- Hkey.
    unfold r1, register. cbn [snd _providers]. apply Dict.elem_of_keys_setitem.
  - intros key. repeat split; now apply at_most_one_visible.
Qed.

(** C4. When nothing is registered under the lowercased key, [get]
    returns [None] and [require] raises the [KeyError] whose message holds
    both the namespace as given and the kind's value; when a descriptor is
    registered there, [require] returns it. *)
Theorem require_or_get self kind namespace :
  (Dict.get (_providers self) (kind, lower namespace) = None ->
   get self kind namespace = None
   /\ require self kind namespace
      = inl (KeyError (msg_not_registered namespace kind))
   /\ Str.occurs_in namespace (msg_not_registered namespace kind)
   /\ Str.occurs_in (value kind) (msg_not_registered namespace kind))
  /\ (forall descriptor,
        Dict.get (_providers self) (kind, lower namespace) = Some descriptor ->
        get self kind namespace = Some descriptor
        /\ require self kind namespace = inr descriptor).
Proof.
  split.
  - intros Hnone. unfold require, get. rewrite Hnone.
    repeat split; [|].
    + exists "Provider '", ("' of kind '" +:+ value kind +:+ "' is not registered").
      reflexivity.
    + exists ("Provider '" +:+ namespace +:+ "' of kind '"), "' is not registered".
      unfold msg_not_registered. now rewrite !Str.append_assoc.
  - intros descriptor Hsome. unfold require, get. now rewrite Hsome.
Qed.

(** *** Facts about the global registry *)

(** Either nothing was created yet, or the global names the one instance. *)
Definition singleton (s : Store) : Prop :=
  (_GLOBAL_REGISTRY s = None /\ instances s = [])
  \/ (_GLOBAL_REGISTRY s = Some 0 /\ length (instances s) = 1).

Lemma singleton_initial : singleton initial_store.
Proof. left. split; reflexivity. Qed.

Lemma singleton_get_global_registry s :
  singleton s ->
  fst (get_global_registry s) = 0
  /\ singleton (snd (get_global_registry s))
  /\ _GLOBAL_REGISTRY (snd (get_global_registry s)) = Some 0
  /\ length (instances (snd (get_global_registry s))) = 1.
Proof.
  unfold get_global_registry.
  intros [[Hg Hi] | [Hg Hi]]; rewrite Hg; cbn [fst snd].
  - rewrite Hi. repeat split. right. split; reflexivity.
  - repeat split; try assumption. right. now split.
Qed.

Lemma singleton_register_at ref descriptor s :
  singleton s -> singleton (register_at ref descriptor s).
Proof.
  unfold register_at. intros Hs.
  destruct (instances s !! ref) as [self|]; [|assumption].
  destruct Hs as [[Hg Hi] | [Hg Hi]]; [left | right];
    cbn [_GLOBAL_REGISTRY instances]; split; try assumption.
  - now rewrite Hi.
  - now rewrite length_insert.
Qed.

Lemma singleton__register_kind kind namespace provider_cls s :
  singleton s ->
  singleton (_register_kind kind namespace provider_cls s)
  /\ _GLOBAL_REGISTRY (_register_kind kind namespace provider_cls s) = Some 0.
Proof.
  intros Hs. unfold _register_kind.
  destruct (singleton_get_global_registry s Hs) as (Href & Hs1 & Hg & _).
  destruct (get_global_registry s) as [ref s1]. cbn [fst snd] in *.
  split; [now apply singleton_register_at |].
  unfold register_at. now destruct (instances s1 !! ref).
Qed.

Lemma singleton_run_call c s :
  singleton s ->
  singleton (snd (run_call c s))
  /\ (forall ref, fst (run_call c s) = Some ref ->
        ref = 0 /\ _GLOBAL_REGISTRY (snd (run_call c s)) = Some 0).
Proof.
  intros Hs. destruct c; cbn [run_call]; try (split; [|discriminate]).
  - destruct (singleton_get_global_registry s Hs) as (Href & Hs1 & Hg & _).
    destruct (get_global_registry s) as [ref s1]. cbn [fst snd] in *.
    split; [assumption |]. intros ? [= <-]. now split.
  - now apply singleton__register_kind.
  - now apply singleton__register_kind.
  - now apply singleton_register_at.
  - assumption.
  - assumption.
  - assumption.
Qed.

(** Once set, the global is never cleared. *)
Lemma run_calls_keeps_global cs s :
  singleton s -> _GLOBAL_REGISTRY s = Some 0 ->
  _GLOBAL_REGISTRY (snd (run_calls cs s)) = Some 0.
Proof.
  revert s. induction cs as [|c cs IH]; intros s Hs Hg; [exact Hg |].
  cbn [run_calls].
  destruct (singleton_run_call c s Hs) as [Hs1 _].
  assert (Hg1 : _GLOBAL_REGISTRY (snd (run_call c s)) = Some 0).
  { destruct Hs1 as [[Hnone Hnil] | [H0 _]]; [exfalso | assumption].
    destruct c as [| ns cls | ns cls | ref d | | |]; cbn [run_call snd] in Hnone.
    - unfold get_global_registry in Hnone. rewrite Hg in Hnone.
      cbn in Hnone. congruence.
    - destruct (singleton__register_kind LIBRARY ns cls s Hs) as [_ H].
      unfold register_library_provider in Hnone. congruence.
    - destruct (singleton__register_kind LIST ns cls s Hs) as [_ H].
      unfold register_list_provider in Hnone. congruence.
    - unfold register_at in Hnone.
      destruct (instances s !! ref); cbn in Hnone; congruence.
    - congruence.
    - congruence.
    - congruence. }
  specialize (IH _ Hs1 Hg1).
  destruct (run_call c s) as [r s1]. cbn [snd] in *.
  destruct (run_calls cs s1) as [refs s2]. exact IH.
Qed.

Lemma singleton_run_calls cs s :
  singleton s ->
  singleton (snd (run_calls cs s))
  /\ (forall ref, In ref (fst (run_calls cs s)) -> ref = 0)
  /\ (fst (run_calls cs s) <> [] ->
      _GLOBAL_REGISTRY (snd (run_calls cs s)) = Some 0).
Proof.
  revert s. induction cs as [|c cs IH]; intros s Hs; cbn [run_calls].
  - split; [assumption |]. split; [intros ref []| intros H; now elim H].
  - destruct (singleton_run_call c s Hs) as [Hs1 Hr].
    pose proof (run_calls_keeps_global cs _ Hs1) as Hkeep.
    destruct (run_call c s) as [r s1]. cbn [fst snd] in *.
    destruct (IH s1 Hs1) as (Hs2 & Hrefs & Hg).
    destruct (run_calls cs s1) as [refs s2]. cbn [fst snd] in *.
    split; [assumption |]. destruct r as [ref|].
    + destruct (Hr ref eq_refl) as [-> Hg1]. split.
      * intros ref [<- | Hin]; [reflexivity | now apply Hrefs].
      * intros _. now apply Hkeep.
    + split; assumption.
Qed.

(** C9. The registry is created by the first call of the accessor, not
    before; in every sequence of calls, with registrations and lookups
    in between, all calls of the accessor return one and the same
    reference, at most one [ProviderRegistry] is ever created, and once the
    accessor has been called there is exactly one, which [_GLOBAL_REGISTRY]
    keeps naming: no call removes or replaces it. *)
Theorem global_registry_is_singleton (cs : list Call) :
  let refs := fst (run_calls cs initial_store) in
  let s := snd (run_calls cs initial_store) in
  (instances initial_store = []
   /\ get_global_registry initial_store = (0, mkStore [new_registry] (Some 0)))
  /\ (forall r1 r2, In r1 refs -> In r2 refs -> r1 = r2)
  /\ length (instances s) <= 1
  /\ (refs <> [] -> length (instances s) = 1 /\ _GLOBAL_REGISTRY s = Some 0).
Proof.
  intros refs s.
  destruct (singleton_run_calls cs initial_store singleton_initial)
    as (Hs & Hrefs & Hg). fold refs in Hrefs, Hg. fold s in Hs, Hg.
  split; [split; reflexivity |]. split; [|split].
  - intros r1 r2 H1 H2. rewrite (Hrefs r1 H1). now rewrite (Hrefs r2 H2).
  - destruct Hs as [[_ ->] | [_ ->]]; simpl; lia.
  - intros Hne. specialize (Hg Hne).
    destruct Hs as [[Hnone _] | [_ Hlen]]; [congruence | now split].
Qed.

(** *** Facts about the entry-point loader *)

(** A class is never handled as a class: where [isinstance(obj, type)] is
    tested, [callable(obj)] has already been found false. *)
Lemma class_branch_unreachable obj :
  callable obj = false -> isinstance_type obj = false /\ as_class obj = None.
Proof. destruct obj; simpl; intros H; (discriminate || now split). Qed.

(** The loader treats a class like any other callable with the same
    behaviour: [NAMESPACE] and [PROVIDER_KIND] are never read. *)
Lemma load_one_class entry_point c s s1 :
  ep_load entry_point s = (inr (PyClass c), s1) ->
  load_one entry_point s
  = (let '(registry, s2) := get_global_registry s1 in
     match cls_construct c (Some registry) s2 with
     | (Normal, s3) => mkOutcome Normal s3 []
     | (Throws e, s3) =>
         if is_TypeError e then
           let '(r, s4) := cls_construct c None s3 in mkOutcome r s4 []
         else mkOutcome (Throws e) s3 []
     end).
Proof. intros H. unfold load_one. rewrite H. reflexivity. Qed.

Lemma load_entry_points_app before after s :
  load_entry_points (before ++ after) s
  = (let o := load_entry_points before s in
     match completion o with
     | Normal =>
         let o' := load_entry_points after (store_after o) in
         mkOutcome (completion o') (store_after o') (logged o ++ logged o')
     | Throws _ => o
     end).
Proof.
  revert s. induction before as [|ep before IH]; intros s.
  - cbn. now destruct (load_entry_points after s).
  - cbn [app load_entry_points].
    destruct (completion (load_one ep s)) eqn:E.
    + rewrite IH. cbn zeta.
      destruct (completion (load_entry_points before (store_after (load_one ep s))))
        eqn:E'; cbn [completion store_after logged].
      * now rewrite app_assoc.
      * now rewrite E'.
    + now rewrite E.
Qed.

Lemma failures_app calls calls' :
  failures (calls ++ calls') = failures calls + failures calls'.
Proof. unfold failures. now rewrite List.filter_app, length_app. Qed.

Lemma quiet_no_failure entry_point s :
  quiet entry_point s -> failures (logged (load_one entry_point s)) = 0.
Proof.
  intros [(obj & s1 & Hload) _]. unfold load_one. rewrite Hload.
  destruct (callable obj).
  - destruct (get_global_registry s1) as [registry s2].
    destruct (py_call obj (Some registry) s2) as [[|e] s3]; [reflexivity |].
    destruct (is_TypeError e); [|reflexivity].
    now destruct (py_call obj None s3).
  - destruct (as_class obj) as [c|]; [|reflexivity].
    destruct (getattr obj "PROVIDER_KIND" VNone); try reflexivity.
    now destruct (as_str _).
Qed.

Lemma all_quiet_normal selected s :
  all_quiet selected s ->
  completion (load_entry_points selected s) = Normal
  /\ failures (logged (load_entry_points selected s)) = 0.
Proof.
  revert s. induction selected as [|ep rest IH]; intros s; [now split |].
  cbn [all_quiet load_entry_points]. intros [Hq Hrest].
  pose proof (quiet_no_failure _ _ Hq) as Hf. destruct Hq as [_ Hn].
  rewrite Hn. destruct (IH _ Hrest) as [Hc Hz].
  cbn [completion logged]. split; [assumption |].
  rewrite failures_app. lia.
Qed.

(** An exception other than [TypeError] raised by the call with the
    registry leaves the loop body, and with it the loader: nothing is
    logged and the entries after it are not processed. *)
Lemma load_one_call_raises entry_point s obj s1 e s3 :
  ep_load entry_point s = (inr obj, s1) ->
  callable obj = true ->
  py_call obj (Some (fst (get_global_registry s1))) (snd (get_global_registry s1))
  = (Throws e, s3) ->
  is_TypeError e = false ->
  load_one entry_point s = mkOutcome (Throws e) s3 []
  /\ forall rest,
       load_entry_points (entry_point :: rest) s = mkOutcome (Throws e) s3 [].
Proof.
  intros Hload Hc Hcall He.
  assert (H : load_one entry_point s = mkOutcome (Throws e) s3 []).
  { unfold load_one. rewrite Hload, Hc.
    destruct (get_global_registry s1) as [registry s2]. cbn [fst snd] in Hcall.
    now rewrite Hcall, He. }
  split; [exact H |]. intros rest. cbn [load_entry_points]. now rewrite H.
Qed.

(** What the loop body does with an entry whose load raises an
    [Exception]: one failure is recorded and the loop goes on. *)
Lemma load_one_failure entry_point s e s1 :
  ep_load entry_point s = (inl e, s1) ->
  is_Exception e = true ->
  load_one entry_point s
  = mkOutcome Normal s1 [LogException (msg_failed entry_point)].
Proof. intros H He. unfold load_one. now rewrite H, He. Qed.

(** C3, amended.  When exactly one entry fails, and it fails by raising an
    [Exception] from its [load()], while every other entry is processed
    quietly, the loader returns normally, the entries after the failing
    one are processed as usual from the store the failing load left, the
    calls on [_LOG] are those of the other entries plus one failure record
    for the failing entry, which is the only failure record, and, when the
    failing load left the store as it found it, the final store is the one
    the loader reaches without that entry. *)
Theorem load_failure_is_isolated before bad after s e s2 :
  all_quiet before s ->
  ep_load bad (store_after (load_entry_points before s)) = (inl e, s2) ->
  is_Exception e = true ->
  all_quiet after s2 ->
  let o := load_entry_points (before ++ bad :: after) s in
  completion o = Normal
  /\ store_after o = store_after (load_entry_points after s2)
  /\ logged o
     = logged (load_entry_points before s)
       ++ LogException (msg_failed bad) :: logged (load_entry_points after s2)
  /\ failures (logged o) = 1
  /\ (s2 = store_after (load_entry_points before s) ->
      store_after o = store_after (load_entry_points (before ++ after) s)).
Proof.
  intros Hbefore Hload He Hafter o.
  destruct (all_quiet_normal _ _ Hbefore) as [Hc1 Hf1].
  destruct (all_quiet_normal _ _ Hafter) as [Hc2 Hf2].
  assert (Ho : o = mkOutcome Normal (store_after (load_entry_points after s2))
                 (logged (load_entry_points before s)
                  ++ LogException (msg_failed bad)
                     :: logged (load_entry_points after s2))).
  { unfold o. rewrite load_entry_points_app. cbn zeta. rewrite Hc1.
    cbn [load_entry_points]. rewrite (load_one_failure _ _ _ _ Hload He).
    cbn [completion store_after logged]. now rewrite Hc2. }
  rewrite Ho. cbn [completion store_after logged].
  repeat split.
  - rewrite failures_app. change (LogException (msg_failed bad) :: ?l)
      with ([LogException (msg_failed bad)] ++ l).
    rewrite failures_app, Hf1, Hf2. reflexivity.
  - intros ->. rewrite load_entry_points_app. cbn zeta. now rewrite Hc1.
Qed.

(** *** Further facts about the registry *)

(** A registration is invisible to every lookup under another key: another
    kind with the same namespace, or the same kind with a namespace that
    lowercases differently. *)
Theorem register_leaves_other_keys self descriptor kind' namespace' :
  kind' <> kind descriptor \/ lower namespace' <> namespace descriptor ->
  get (snd (register self descriptor)) kind' namespace' = get self kind' namespace'
  /\ require (snd (register self descriptor)) kind' namespace'
     = require self kind' namespace'.
Proof.
  intros Hne.
  assert (H : get (snd (register self descriptor)) kind' namespace'
              = get self kind' namespace').
  { unfold get, register. cbn [snd _providers]. apply Dict.get_setitem_ne.
    intros [= E1 E2]. destruct Hne as [Hne | Hne]; now apply Hne. }
  split; [exact H |]. unfold require. now rewrite H.
Qed.

(** After a registration, [require] succeeds under every casing of the
    namespace and returns the registered descriptor. *)
Theorem require_after_register self kind namespace provider_cls lookup :
  lower lookup = lower namespace ->
  require (snd (register self (new_descriptor namespace kind provider_cls)))
    kind lookup
  = inr (new_descriptor namespace kind provider_cls).
Proof.
  intros Hcase. unfold require, get, register, new_descriptor. simpl.
  rewrite Hcase. now rewrite Dict.get_setitem.
Qed.

(** A descriptor registered under a key that was free is appended to
    [available()], after the descriptors that were there. *)
Theorem register_fresh_appends self descriptor :
  Dict.get (_providers self) (key_of descriptor) = None ->
  available (snd (register self descriptor)) = available self ++ [descriptor]
  /\ length (available (snd (register self descriptor)))
     = S (length (available self)).
Proof.
  intros Hnone. apply Dict.get_None in Hnone.
  assert (H : available (snd (register self descriptor))
              = available self ++ [descriptor]).
  { unfold available, register. cbn [snd _providers].
    now apply Dict.values_setitem_absent. }
  split; [exact H |]. rewrite H, length_app. simpl. lia.
Qed.

(** A descriptor registered under a key that is taken replaces the old one
    at its position in [available()]; every other position is as before. *)
Theorem register_taken_in_place self descriptor i old :
  reachable self ->
  available self !! i = Some old ->
  key_of old = key_of descriptor ->
  available (snd (register self descriptor)) = <[i := descriptor]> (available self).
Proof.
  intros Hreach Hi Hkey.
  destruct (reachable_consistent _ Hreach) as [Hwf Hkeys].
  unfold available, Dict.values in *. apply list_lookup_fmap_Some in Hi.
  destruct Hi as ([k d] & E & Hitem). cbn [snd] in E. subst old.
  assert (Hk : k = key_of descriptor).
  { rewrite Forall_forall in Hkeys. rewrite <- Hkey.
    apply (Hkeys (k, d)). apply list_elem_of_lookup. now exists i. }
  subst k. unfold register. cbn [snd _providers]. fold (key_of descriptor).
  rewrite (Dict.setitem_present_at _ i _ d descriptor Hwf Hitem).
  now rewrite list_fmap_insert.
Qed.

(** In a reachable registry [get] finds exactly the descriptors that
    [available()] lists with that kind and that lowercased namespace. *)
Theorem get_iff_available self kind namespace descriptor :
  reachable self ->
  (get self kind namespace = Some descriptor
   <-> descriptor ∈ available self
       /\ key_of descriptor = (kind, lower namespace)).
Proof.
  intros Hreach. destruct (reachable_consistent _ Hreach) as [Hwf Hkeys].
  rewrite Forall_forall in Hkeys. unfold get, available, Dict.values. split.
  - intros Hget. apply Dict.get_Some_elem_of in Hget. split.
    + apply list_elem_of_fmap. now exists ((kind, lower namespace), descriptor).
    + symmetry. exact (Hkeys _ Hget).
  - intros [Hin Hkey]. apply list_elem_of_fmap in Hin.
    destruct Hin as ([k d] & E & Hin). cbn [snd] in E. subst d.
    apply Dict.elem_of_get; [assumption |].
    pose proof (Hkeys _ Hin) as Hk. cbn [fst snd] in Hk. congruence.
Qed.

(** The registries built from descriptors that went through the
    constructor, as every [ProviderDescriptor] does. *)
Inductive built : ProviderRegistry -> Prop :=
  | built_new : built new_registry
  | built_register self namespace kind provider_cls :
      built self ->
      built (snd (register self (new_descriptor namespace kind provider_cls))).

Lemma built_reachable self : built self -> reachable self.
Proof. induction 1; [apply reachable_new | now apply reachable_register]. Qed.

Lemma built_normalized self descriptor :
  built self -> descriptor ∈ available self ->
  exists namespace, Registry.namespace descriptor = lower namespace.
Proof.
  induction 1 as [| self ns k cls _ IH]; intros Hin.
  - now apply elem_of_nil in Hin.
  - unfold available, Dict.values, register in Hin. cbn [snd _providers] in Hin.
    apply list_elem_of_fmap in Hin. destruct Hin as ([k' d] & E & Hin).
    cbn [snd] in E. subst d. apply Dict.setitem_elem_of in Hin.
    destruct Hin as [[= _ ->] | Hin]; [now exists ns |].
    apply IH. unfold available, Dict.values. apply list_elem_of_fmap.
    now exists (k', descriptor).
Qed.

(** Enumerate, then look up: when lowercasing a lowercased string changes
    nothing, every descriptor of [available()] is found again by [get] and
    [require] under its own kind and namespace. *)
Theorem available_found_by_get self descriptor :
  (forall s, lower (lower s) = lower s) ->
  built self ->
  descriptor ∈ available self ->
  get self (kind descriptor) (namespace descriptor) = Some descriptor
  /\ require self (kind descriptor) (namespace descriptor) = inr descriptor.
Proof.
  intros Hidem Hbuilt Hin.
  assert (H : get self (kind descriptor) (namespace descriptor) = Some descriptor).
  { apply get_iff_available; [now apply built_reachable |].
    split; [assumption |].
    destruct (built_normalized _ _ Hbuilt Hin) as [ns Hns].
    unfold key_of. now rewrite Hns, Hidem. }
  split; [exact H |]. unfold require. now rewrite H.
Qed.

(** What [_register_kind] makes of a store that holds at most the global
    registry: the one instance, with the new descriptor registered. *)
Lemma _register_kind_global kind namespace provider_cls s :
  singleton s ->
  _register_kind kind namespace provider_cls s
  = mkStore
      [snd (register (default new_registry (global_registry s))
              (new_descriptor namespace kind provider_cls))]
      (Some 0).
Proof.
  unfold _register_kind, get_global_registry, register_at, global_registry.
  intros [[Hg Hi] | [Hg Hi]]; rewrite Hg.
  - rewrite Hi. reflexivity.
  - destruct (instances s) as [|r [|r' rest]]; try discriminate Hi.
    cbn. now rewrite Hg.
Qed.

(** The two decorators register the class in the global registry, creating
    it when needed: the class is then found under the decorator's kind and
    any casing of the namespace, and lookups under the other kind are what
    they were. *)
Theorem decorators_register_globally namespace cls s :
  singleton s ->
  let before := default new_registry (global_registry s) in
  (exists after,
     global_registry (register_library_provider namespace cls s) = Some after
     /\ get after LIBRARY namespace = Some (mkDescriptor (lower namespace) LIBRARY cls)
     /\ forall other, get after LIST other = get before LIST other)
  /\ (exists after,
        global_registry (register_list_provider namespace cls s) = Some after
        /\ get after LIST namespace = Some (mkDescriptor (lower namespace) LIST cls)
        /\ forall other, get after LIBRARY other = get before LIBRARY other).
Proof.
  intros Hs before. unfold register_library_provider, register_list_provider.
  rewrite !(_register_kind_global _ _ _ _ Hs). fold before.
  split; eexists; (split; [reflexivity |]); split.
  - unfold get, register, new_descriptor. simpl. apply Dict.get_setitem.
  - intros other. unfold get, register, new_descriptor. simpl.
    now apply Dict.get_setitem_ne.
  - unfold get, register, new_descriptor. simpl. apply Dict.get_setitem.
  - intros other. unfold get, register, new_descriptor. simpl.
    now apply Dict.get_setitem_ne.
Qed.

(** *** Further facts about the entry-point loader *)

(** The two authoring styles of a registration function that the
    [TypeError] retry serves: one takes the registry and registers through
    it, the other takes no argument and registers through the global
    accessor. *)
Definition takes_registry (descriptor : ProviderDescriptor) : Behaviour :=
  fun arg s =>
    match arg with
    | Some ref => (Normal, register_at ref descriptor s)
    | None =>
        (Throws (TypeError "missing 1 required positional argument: 'registry'"), s)
    end.

Definition self_registers (kind : ProviderKind) (namespace : string)
    (provider_cls : Cls) : Behaviour :=
  fun arg s =>
    match arg with
    | Some _ =>
        (Throws (TypeError "takes 0 positional arguments but 1 was given"), s)
    | None => (Normal, _register_kind kind namespace provider_cls s)
    end.

Lemma get_global_registry_again s :
  get_global_registry (snd (get_global_registry s))
  = (fst (get_global_registry s), snd (get_global_registry s)).
Proof.
  unfold get_global_registry.
  destruct (_GLOBAL_REGISTRY s) as [ref|] eqn:E; cbn [fst snd].
  - now rewrite E.
  - reflexivity.
Qed.

(** Both styles end the same way: the loader returns normally, logs
    nothing, and leaves the store that [_register_kind] would leave. *)
Theorem both_calling_conventions_agree ep1 ep2 name1 name2 kind namespace cls s s1 :
  ep_load ep1 s
  = (inr (PyCallable name1 (takes_registry (new_descriptor namespace kind cls))), s1) ->
  ep_load ep2 s = (inr (PyCallable name2 (self_registers kind namespace cls)), s1) ->
  load_one ep1 s = mkOutcome Normal (_register_kind kind namespace cls s1) []
  /\ load_one ep2 s = load_one ep1 s.
Proof.
  intros H1 H2.
  assert (E1 : load_one ep1 s
               = mkOutcome Normal (_register_kind kind namespace cls s1) []).
  { unfold load_one. rewrite H1. cbn [callable py_call takes_registry].
    unfold _register_kind. now destruct (get_global_registry s1). }
  split; [exact E1 |]. rewrite E1.
  unfold load_one. rewrite H2. cbn [callable py_call self_registers].
  pose proof (get_global_registry_again s1) as Hagain.
  destruct (get_global_registry s1) as [ref s2] eqn:E. cbn [fst snd] in Hagain.
  cbn [is_TypeError]. unfold _register_kind. now rewrite Hagain, E.
Qed.

(** Entries that load, without touching the store, to objects that are
    neither callable nor classes change nothing and stop nothing: the loader
    returns normally with the store it started from, one warning per entry
    and no failure. *)
Theorem unsupported_objects_only_warn selected s :
  Forall (fun entry_point =>
            exists repr, forall s', ep_load entry_point s' = (inr (PyOther repr), s'))
         selected ->
  completion (load_entry_points selected s) = Normal
  /\ store_after (load_entry_points selected s) = s
  /\ warnings (logged (load_entry_points selected s)) = length selected
  /\ failures (logged (load_entry_points selected s)) = 0.
Proof.
  induction 1 as [| ep rest [repr Hload] _ IH]; [now repeat split |].
  assert (E : load_one ep s
              = mkOutcome Normal s
                  [LogWarning (msg_unsupported ep (PyOther repr))
                     [ep_str ep; obj_repr (PyOther repr)]]).
  { unfold load_one. now rewrite Hload. }
  cbn [load_entry_points]. rewrite E. cbn [completion store_after logged].
  destruct IH as (Hc & Hs & Hw & Hf). rewrite Hs.
  split; [exact Hc |]. split; [reflexivity |]. split.
  - unfold warnings in *. cbn. now rewrite Hw.
  - unfold failures in *. cbn. exact Hf.
Qed.

(** [except Exception] does not catch what is no [Exception]: when a load
    raises [SystemExit], [KeyboardInterrupt] or the like, it leaves the
    loader at once; nothing is logged and the entries after it are not
    loaded. *)
Theorem load_base_exception_escapes entry_point rest s e s1 :
  ep_load entry_point s = (inl e, s1) ->
  is_Exception e = false ->
  load_entry_points (entry_point :: rest) s = mkOutcome (Throws e) s1 [].
Proof.
  intros Hload He. cbn [load_entry_points]. unfold load_one.
  now rewrite Hload, He.
Qed.

End Registry.

(** *** The registry and the loader on sample plugins *)

(** Class references are qualified class names here, and [str.lower] is
    its ASCII restriction. *)
Definition sample_lower : string -> string := Str.ascii_lower.

Definition plex_v1 : ProviderDescriptor := mkDescriptor "plex" LIBRARY "plex.ProviderV1".
Definition plex_v2 : ProviderDescriptor := mkDescriptor "plex" LIBRARY "plex.ProviderV2".
Definition kitsu : ProviderDescriptor := mkDescriptor "kitsu" LIST "kitsu.Provider".

(** A registration function [def register(registry): registry.register(...)]
    that also works without argument, through the global registry. *)
Definition registers (kind : ProviderKind) (namespace cls : string)
  : Behaviour (Cls := string) :=
  fun arg s =>
    match arg with
    | Some ref =>
        (Normal, register_at ref (new_descriptor sample_lower namespace kind cls) s)
    | None => (Normal, _register_kind sample_lower kind namespace cls s)
    end.

Definition ep_registers (name : string) (kind : ProviderKind) (namespace cls : string)
  : EntryPoint (Cls := string) :=
  mkEntryPoint name ("EntryPoint(name='" +:+ name +:+ "')")
    (fun s => (inr (PyCallable name (registers kind namespace cls)), s)).

(** An entry point whose module cannot be imported. *)
Definition ep_broken : EntryPoint (Cls := string) :=
  mkEntryPoint "broken" "EntryPoint(name='broken')"
    (fun s => (inl (OtherException "ModuleNotFoundError" "No module named 'broken'"), s)).

(** An entry point that loads to a function which raises when it is called. *)
Definition ep_raising : EntryPoint (Cls := string) :=
  mkEntryPoint "raising" "EntryPoint(name='raising')"
    (fun s => (inr (PyCallable "setup"
                      (fun _ s' => (Throws (OtherException "RuntimeError" "boom"), s'))),
               s)).

(** The constructor of a provider class that follows [BaseProvider]:
    [__init__(self, *, config=None)] takes no positional argument. *)
Definition base_provider_init : Behaviour (Cls := string) :=
  fun arg s =>
    match arg with
    | Some _ =>
        (Throws (TypeError "__init__() takes 1 positional argument but 2 were given"), s)
    | None => (Normal, s)
    end.

(** A provider class with both class attributes, and one without
    [PROVIDER_KIND]. *)
Definition demo_class : ClassObject :=
  mkClass "demo_pkg.DemoProvider" "demo_pkg.DemoProvider"
    (Some (VStr "Demo")) (Some (VKind LIBRARY)) base_provider_init.

Definition unkind_class : ClassObject :=
  mkClass "demo_pkg.Unkind" "demo_pkg.Unkind" (Some (VStr "Unkind")) None
    base_provider_init.

Definition ep_class (name : string) (c : ClassObject (Cls := string))
  : EntryPoint (Cls := string) :=
  mkEntryPoint name ("EntryPoint(name='" +:+ name +:+ "')")
    (fun s => (inr (PyClass c), s)).

(** A store in which one provider is already registered. *)
Definition store_with_kitsu : Store :=
  _register_kind sample_lower LIST "Kitsu" "kitsu.Provider" initial_store.

Lemma register_then_get_mixed_case :
  sample_lower "ANILIST" = sample_lower "AniList"
  /\ get sample_lower
       (snd (register new_registry
               (new_descriptor sample_lower "AniList" LIST "anilist.Provider")))
       LIST "ANILIST"
     = Some (mkDescriptor "anilist" LIST "anilist.Provider").
Proof.
  split; [reflexivity |].
  exact (proj1 (proj2 (register_then_get sample_lower new_registry LIST
                         "AniList" "anilist.Provider" "ANILIST" eq_refl))).
Defined.

Lemma register_twice_plex :
  reachable (snd (register new_registry kitsu))
  /\ key_of plex_v1 = key_of plex_v2
  /\ visible_at (snd (register (snd (register (snd (register new_registry kitsu))
                                       plex_v1)) plex_v2))
       (key_of plex_v2)
     = [plex_v2].
Proof.
  assert (H : reachable (snd (register new_registry kitsu)))
    by (apply reachable_register, reachable_new).
  split; [exact H |]. split; [reflexivity |].
  exact (proj1 (proj2 (register_twice_last_wins _ plex_v1 plex_v2 H eq_refl))).
Defined.

(** The repeat registration on the sample: two descriptors stay available,
    in insertion order, the second [plex] one in the place of the first. *)
Lemma available_after_repeat :
  available (snd (register (snd (register (snd (register new_registry kitsu))
                                   plex_v1)) plex_v2))
  = [kitsu; plex_v2].
Proof. reflexivity. Qed.

Lemma broken_entry_is_skipped :
  (all_quiet sample_lower [ep_registers "a" LIST "Alpha" "a.Provider"] initial_store
   /\ is_Exception (OtherException "ModuleNotFoundError" "No module named 'broken'")
      = true
   /\ all_quiet sample_lower [ep_registers "b" LIBRARY "Beta" "b.Provider"]
        (store_after (load_entry_points sample_lower
                        [ep_registers "a" LIST "Alpha" "a.Provider"] initial_store)))
  /\ completion (load_entry_points sample_lower
                   [ep_registers "a" LIST "Alpha" "a.Provider"; ep_broken;
                    ep_registers "b" LIBRARY "Beta" "b.Provider"] initial_store)
     = Normal
  /\ failures (logged (load_entry_points sample_lower
                   [ep_registers "a" LIST "Alpha" "a.Provider"; ep_broken;
                    ep_registers "b" LIBRARY "Beta" "b.Provider"] initial_store))
     = 1.
Proof.
  assert (Ha : all_quiet sample_lower
                 [ep_registers "a" LIST "Alpha" "a.Provider"] initial_store).
  { cbn [all_quiet]. split; [|exact I]. split; [|reflexivity].
    eexists _, _. reflexivity. }
  assert (Hb : all_quiet sample_lower
                 [ep_registers "b" LIBRARY "Beta" "b.Provider"]
                 (store_after (load_entry_points sample_lower
                    [ep_registers "a" LIST "Alpha" "a.Provider"] initial_store))).
  { cbn [all_quiet]. split; [|exact I]. split; [|reflexivity].
    eexists _, _. reflexivity. }
  split; [split; [exact Ha | split; [reflexivity | exact Hb]] |].
  pose proof (load_failure_is_isolated sample_lower
                [ep_registers "a" LIST "Alpha" "a.Provider"] ep_broken
                [ep_registers "b" LIBRARY "Beta" "b.Provider"] initial_store
                _ _ Ha eq_refl eq_refl Hb) as H.
  split; [exact (proj1 H) | exact (proj1 (proj2 (proj2 (proj2 H))))].
Defined.

(** After that run both healthy plugins are registered. *)
Lemma broken_entry_others_registered :
  available <$> global_registry
    (store_after (load_entry_points sample_lower
        [ep_registers "a" LIST "Alpha" "a.Provider"; ep_broken;
         ep_registers "b" LIBRARY "Beta" "b.Provider"] initial_store))
  = Some [mkDescriptor "alpha" LIST "a.Provider";
          mkDescriptor "beta" LIBRARY "b.Provider"].
Proof. reflexivity. Qed.

(** C3 as stated fails: of these two entries only the first raises, when
    the function it loads to is called; the exception leaves the loader,
    no failure is recorded, and the second entry is never processed. *)
Lemma raising_callable_escapes :
  all_quiet sample_lower [ep_registers "a" LIST "Alpha" "a.Provider"] initial_store
  /\ load_entry_points sample_lower
       [ep_raising; ep_registers "a" LIST "Alpha" "a.Provider"] initial_store
     = mkOutcome (Throws (OtherException "RuntimeError" "boom"))
         (mkStore [new_registry] (Some 0)) []
  /\ failures [] = 0.
Proof.
  split; [|split; reflexivity].
  cbn [all_quiet]. split; [|exact I]. split; [|reflexivity].
  eexists _, _. reflexivity.
Qed.

(** C7 on the code: a provider class with [NAMESPACE] and a valid
    [PROVIDER_KIND] is called like a registration function; the call with
    the registry is rejected, the class is instantiated without argument,
    and nothing is registered. *)
Lemma class_entry_not_registered :
  load_entry_points sample_lower [ep_class "demo" demo_class] initial_store
  = mkOutcome Normal (mkStore [new_registry] (Some 0)) []
  /\ get (Cls := string) sample_lower new_registry LIBRARY "Demo" = None
  /\ available (Cls := string) new_registry = [].
Proof. repeat split; reflexivity. Qed.

(** C8 on the code: a provider class without [PROVIDER_KIND] goes the same
    way; the registry keeps its contents, and no warning is recorded. *)
Lemma class_without_kind_not_warned :
  load_entry_points sample_lower [ep_class "unkind" unkind_class] store_with_kitsu
  = mkOutcome Normal store_with_kitsu []
  /\ warnings [] = 0.
Proof. split; reflexivity. Qed.

(** *** Further runs of the registry and the loader on the samples *)

Lemma same_namespace_other_kind :
  (LIST <> kind plex_v1 \/ sample_lower "Plex" <> namespace plex_v1)
  /\ get sample_lower (snd (register (snd (register new_registry kitsu)) plex_v1))
       LIST "Plex"
     = None.
Proof.
  assert (H : LIST <> kind plex_v1 \/ sample_lower "Plex" <> namespace plex_v1)
    by (left; discriminate).
  split; [exact H |].
  rewrite (proj1 (register_leaves_other_keys sample_lower
                    (snd (register new_registry kitsu)) plex_v1 LIST "Plex" H)).
  reflexivity.
Defined.

Lemma require_plex_any_case :
  sample_lower "PLEX" = sample_lower "Plex"
  /\ require sample_lower
       (snd (register new_registry (new_descriptor sample_lower "Plex" LIBRARY
                                      "plex.ProviderV1")))
       LIBRARY "PLEX"
     = inr plex_v1.
Proof.
  split; [reflexivity |].
  exact (require_after_register sample_lower new_registry LIBRARY "Plex"
           "plex.ProviderV1" "PLEX" eq_refl).
Defined.

Lemma plex_appended_after_kitsu :
  Dict.get (_providers (snd (register new_registry kitsu))) (key_of plex_v1) = None
  /\ available (snd (register (snd (register new_registry kitsu)) plex_v1))
     = [kitsu; plex_v1].
Proof.
  split; [reflexivity |].
  exact (proj1 (register_fresh_appends (snd (register new_registry kitsu)) plex_v1
                  eq_refl)).
Defined.

Lemma plex_replaced_in_place :
  reachable (snd (register (snd (register new_registry plex_v1)) kitsu))
  /\ available (snd (register (snd (register (snd (register new_registry plex_v1))
                                      kitsu)) plex_v2))
     = [plex_v2; kitsu].
Proof.
  assert (H : reachable (snd (register (snd (register new_registry plex_v1)) kitsu)))
    by (do 2 apply reachable_register; apply reachable_new).
  split; [exact H |].
  exact (register_taken_in_place _ plex_v2 0 plex_v1 H eq_refl eq_refl).
Defined.

Lemma kitsu_listed_and_found :
  reachable (snd (register (snd (register new_registry plex_v1)) kitsu))
  /\ (get sample_lower (snd (register (snd (register new_registry plex_v1)) kitsu))
        LIST "KITSU"
      = Some kitsu
      <-> kitsu ∈ available (snd (register (snd (register new_registry plex_v1)) kitsu))
          /\ key_of kitsu = (LIST, sample_lower "KITSU")).
Proof.
  assert (H : reachable (snd (register (snd (register new_registry plex_v1)) kitsu)))
    by (do 2 apply reachable_register; apply reachable_new).
  split; [exact H |].
  exact (get_iff_available sample_lower _ LIST "KITSU" kitsu H).
Defined.

Lemma built_sample_found_again :
  (forall s, sample_lower (sample_lower s) = sample_lower s)
  /\ get sample_lower
       (snd (register new_registry
               (new_descriptor sample_lower "AniList" LIST "anilist.Provider")))
       LIST "anilist"
     = Some (mkDescriptor "anilist" LIST "anilist.Provider").
Proof.
  split; [exact Str.ascii_lower_idempotent |].
  refine (proj1 (available_found_by_get sample_lower
                   (snd (register new_registry
                           (new_descriptor sample_lower "AniList" LIST
                              "anilist.Provider")))
                   (mkDescriptor "anilist" LIST "anilist.Provider")
                   Str.ascii_lower_idempotent _ _)).
  - apply (built_register sample_lower), built_new.
  - apply list_elem_of_here.
Defined.

Lemma decorator_on_fresh_process :
  singleton (Cls := string) initial_store
  /\ exists after,
       global_registry (register_library_provider sample_lower "Plex"
                          "plex.ProviderV1" initial_store)
       = Some after
       /\ get sample_lower after LIBRARY "Plex" = Some plex_v1.
Proof.
  split; [apply singleton_initial |].
  destruct (proj1 (decorators_register_globally sample_lower "Plex"
                     "plex.ProviderV1" initial_store singleton_initial))
    as (after & Hg & Hget & _).
  exists after. split; assumption.
Defined.

(** The same registration written in the two styles. *)
Definition ep_takes_registry : EntryPoint (Cls := string) :=
  mkEntryPoint "b" "EntryPoint(name='b')"
    (fun s => (inr (PyCallable "setup"
                      (takes_registry
                         (new_descriptor sample_lower "Alpha" LIST "a.Provider"))),
               s)).

Definition ep_self_registers : EntryPoint (Cls := string) :=
  mkEntryPoint "a" "EntryPoint(name='a')"
    (fun s => (inr (PyCallable "setup"
                      (self_registers sample_lower LIST "Alpha" "a.Provider")), s)).

Lemma both_styles_register_alpha :
  load_one sample_lower ep_self_registers initial_store
  = load_one sample_lower ep_takes_registry initial_store
  /\ available <$> global_registry
        (store_after (load_one sample_lower ep_self_registers initial_store))
     = Some [mkDescriptor "alpha" LIST "a.Provider"].
Proof.
  split; [|reflexivity].
  exact (proj2 (both_calling_conventions_agree sample_lower
                  ep_takes_registry ep_self_registers "setup" "setup"
                  LIST "Alpha" "a.Provider" initial_store initial_store
                  eq_refl eq_refl)).
Defined.

(** An entry point that loads to a plain value. *)
Definition ep_value (name repr : string) : EntryPoint (Cls := string) :=
  mkEntryPoint name ("EntryPoint(name='" +:+ name +:+ "')")
    (fun s => (inr (PyOther repr), s)).

Lemma two_plain_values_two_warnings :
  warnings (logged (load_entry_points sample_lower
                      [ep_value "x" "42"; ep_value "y" "'text'"] store_with_kitsu))
  = 2
  /\ store_after (load_entry_points sample_lower
                    [ep_value "x" "42"; ep_value "y" "'text'"] store_with_kitsu)
     = store_with_kitsu.
Proof.
  assert (H : Forall (fun entry_point : EntryPoint (Cls := string) =>
                        exists repr, forall s',
                          ep_load entry_point s' = (inr (PyOther repr), s'))
                [ep_value "x" "42"; ep_value "y" "'text'"]).
  { repeat constructor; eexists; intros s'; reflexivity. }
  destruct (unsupported_objects_only_warn sample_lower _ store_with_kitsu H)
    as (_ & Hs & Hw & _).
  split; [exact Hw | exact Hs].
Defined.

(** An entry point whose module calls [sys.exit()] while it is imported. *)
Definition ep_exits : EntryPoint (Cls := string) :=
  mkEntryPoint "exits" "EntryPoint(name='exits')"
    (fun s => (inl (OtherBaseException "SystemExit"), s)).

Lemma system_exit_leaves_the_loader :
  is_Exception (OtherBaseException "SystemExit") = false
  /\ load_entry_points sample_lower
       [ep_exits; ep_registers "a" LIST "Alpha" "a.Provider"] initial_store
     = mkOutcome (Throws (OtherBaseException "SystemExit")) initial_store [].
Proof.
  split; [reflexivity |].
  exact (load_base_exception_escapes sample_lower ep_exits _ initial_store
           (OtherBaseException "SystemExit") initial_store eq_refl eq_refl).
Defined.

Lemma runtime_error_leaves_the_loader :
  callable (Cls := string)
    (PyCallable "setup"
       (fun _ s' => (Throws (OtherException "RuntimeError" "boom"), s')))
  = true
  /\ load_one sample_lower ep_raising initial_store
     = mkOutcome (Throws (OtherException "RuntimeError" "boom"))
         (mkStore [new_registry] (Some 0)) [].
Proof.
  split; [reflexivity |].
  exact (proj1 (load_one_call_raises sample_lower ep_raising initial_store _
                  initial_store (OtherException "RuntimeError" "boom") _
                  eq_refl eq_refl eq_refl eq_refl)).
Defined.

End Registry.

(** ** library.py and provider.py: the value classes *)
Module Library.

(** [str(n)] for an [int]. *)
Definition str_int (n : Z) : string := NilEmpty.string_of_int (Z.to_int n).

(** [int(s)] on the strings [str] and the format specifications produce. *)
Definition int_str (s : string) : option Z :=
  option_map Z.of_int (NilEmpty.int_of_string s).

(** [f"{n:02d}"]: decimal, zero-filled to a width of two, the sign
    counting. *)
Definition format_02d (n : Z) : string :=
  let digits := str_int n in
  if (String.length digits <? 2)%nat then "0" +:+ digits else digits.

(** [s[:n]] *)
Fixpoint str_take (n : nat) (s : string) : string :=
  match n, s with
  | S n', String a rest => String a (str_take n' rest)
  | _, _ => EmptyString
  end.

(** [IdNameSpace]: the literals an [ExternalId] may carry. *)
Inductive IdNameSpace : Type :=
  | anidb | anilist | imdb | mal | plex | tmdb | tvdb.

Definition literal (ns : IdNameSpace) : string :=
  match ns with
  | anidb => "anidb"
  | anilist => "anilist"
  | imdb => "imdb"
  | mal => "mal"
  | plex => "plex"
  | tmdb => "tmdb"
  | tvdb => "tvdb"
  end.

Record ExternalId : Type := mkExternalId {
  namespace : IdNameSpace;
  value : string
}.

(** [ExternalId.__repr__] *)
Definition ExternalId_repr (self : ExternalId) : string :=
  literal (namespace self) +:+ ": " +:+ value self.

(** What [LibraryEntity.__repr__] reads of an entity:
    [self.__class__.__name__], [self.key] and [self.title]. *)
Record Entity : Type := mkEntity {
  class_name : string;
  key : string;
  title : string
}.

(** [LibraryEntity.__repr__] *)
Definition Entity_repr (self : Entity) : string :=
  "<" +:+ class_name self +:+ ":" +:+ key self +:+ ":"
  +:+ str_take 32 (title self) +:+ ">".

(** What the [__repr__] of seasons and episodes reads: the entity fields,
    [self.show().title] and the indices. *)
Record Season : Type := mkSeason {
  season_entity : Entity;
  season_show_title : string;
  season_number : Z               (* self.index *)
}.

Record Episode : Type := mkEpisode {
  episode_entity : Entity;
  episode_show_title : string;
  season_index : Z;
  index : Z
}.

(** [LibrarySeason.__repr__] *)
Definition Season_repr (self : Season) : string :=
  "<" +:+ class_name (season_entity self) +:+ ":" +:+ key (season_entity self)
  +:+ ":" +:+ str_take 32 (season_show_title self) +:+ ":"
  +:+ "S" +:+ format_02d (season_number self) +:+ ">".

(** [LibraryEpisode.__repr__] *)
Definition Episode_repr (self : Episode) : string :=
  "<" +:+ class_name (episode_entity self) +:+ ":" +:+ key (episode_entity self)
  +:+ ":" +:+ str_take 32 (episode_show_title self) +:+ ":"
  +:+ "S" +:+ format_02d (season_index self)
  +:+ "E" +:+ format_02d (index self) +:+ ">".

(** provider.py: [User], a frozen dataclass whose generated [__eq__]
    compares both fields and whose [__hash__] is written by hand. *)
Record User : Type := mkUser {
  user_key : string;
  user_title : string
}.

Definition User_eq (a b : User) : bool :=
  String.eqb (user_key a) (user_key b) && String.eqb (user_title a) (user_title b).

Section Hash.

(** The built-in [hash] on strings. *)
Variable hash : string -> Z.

(** [User.__hash__] *)
Definition User_hash (self : User) : Z := hash (user_key self).

(** Equal users hash alike, as [__eq__] and [__hash__] must agree; the
    hash looks at the key alone, so users that differ in their title only
    are unequal and still hash alike. *)
Theorem User_hash_respects_eq (a b : User) :
  (User_eq a b = true -> User_hash a = User_hash b)
  /\ (user_key a = user_key b -> User_hash a = User_hash b)
  /\ (user_key a = user_key b -> user_title a <> user_title b ->
      User_eq a b = false).
Proof.
  unfold User_eq, User_hash. split; [|split].
  - intros H. apply andb_true_iff in H. destruct H as [H _].
    apply String.eqb_eq in H. now rewrite H.
  - intros ->. reflexivity.
  - intros _ Ht. apply andb_false_iff. right. now apply String.eqb_neq.
Qed.

End Hash.

(** *** Facts about the representations *)

Lemma length_append (a b : string) :
  String.length (a +:+ b) = String.length a + String.length b.
Proof. induction a as [|c a IH]; simpl; [reflexivity | now rewrite IH]. Qed.

Lemma append_inj_l (p a b : string) : p +:+ a = p +:+ b -> a = b.
Proof. induction p as [|c p IH]; simpl; [auto |]. intros [= H]. now apply IH. Qed.

Lemma length_str_take (n : nat) (s : string) :
  String.length (str_take n s) = Nat.min n (String.length s).
Proof.
  revert s. induction n as [|n IH]; intros [|a s]; simpl; try reflexivity.
  now rewrite IH.
Qed.

Lemma str_take_short (n : nat) (s : string) :
  String.length s <= n -> str_take n s = s.
Proof.
  revert s. induction n as [|n IH]; intros [|a s]; simpl; intros H;
    try reflexivity; [lia |].
  rewrite IH by lia. reflexivity.
Qed.

(** [int] reads back what [str] and the format specification wrote. *)
Lemma int_str_str_int (n : Z) : int_str (str_int n) = Some n.
Proof.
  unfold int_str, str_int. rewrite NilEmpty.isi. simpl. now rewrite DecimalZ.of_to.
Qed.

Lemma to_int_digits (n : Z) :
  (exists d, Z.to_int n = Pos d /\ d <> Nil)
  \/ (exists d, Z.to_int n = Neg d /\ d <> Nil).
Proof.
  destruct n as [|p|p]; simpl.
  - left. eexists. split; [reflexivity | discriminate].
  - left. eexists. split; [reflexivity | apply Unsigned.to_uint_nonnil].
  - right. eexists. split; [reflexivity | apply Unsigned.to_uint_nonnil].
Qed.

Lemma string_of_uint_nonempty (d : uint) :
  d <> Nil -> 1 <= String.length (NilEmpty.string_of_uint d).
Proof. destruct d; simpl; intros H; try lia. now elim H. Qed.

Lemma int_str_format_02d (n : Z) : int_str (format_02d n) = Some n.
Proof.
  unfold format_02d. destruct (String.length (str_int n) <? 2)%nat eqn:E;
    [|apply int_str_str_int].
  pose proof (DecimalZ.of_to n) as Hn. unfold int_str, str_int in *.
  destruct (to_int_digits n) as [(d & Hd & Hnil) | (d & Hd & Hnil)];
    rewrite Hd in *; cbn [NilEmpty.string_of_int] in *.
  - change (NilEmpty.int_of_string ("0" +:+ NilEmpty.string_of_uint d))
      with (option_map Pos
              (uint_of_char "0"
                 (NilEmpty.uint_of_string (NilEmpty.string_of_uint d)))).
    rewrite NilEmpty.usu. cbn [uint_of_char option_map].
    rewrite <- Hn. reflexivity.
  - apply Nat.ltb_lt in E. cbn [String.length] in E.
    pose proof (string_of_uint_nonempty d Hnil). lia.
Qed.

Lemma format_02d_inj (n m : Z) : format_02d n = format_02d m -> n = m.
Proof.
  intros H. apply (f_equal int_str) in H.
  rewrite !int_str_format_02d in H. now injection H.
Qed.

(** Only digits and the sign occur in a formatted index. *)
Lemma contains_string_of_uint (c : ascii) (d : uint) :
  Str.contains c "0123456789" = false ->
  Str.contains c (NilEmpty.string_of_uint d) = false.
Proof.
  intros Hc. cbn [Str.contains] in Hc.
  repeat match type of Hc with
         | (if ?b then true else _) = false =>
             destruct b eqn:?; [discriminate Hc |]
         end.
  induction d; cbn [NilEmpty.string_of_uint Str.contains]; [reflexivity | ..];
    match goal with
    | H : Ascii.eqb ?x c = false |- context [Ascii.eqb ?x c] => now rewrite H
    end.
Qed.

Lemma contains_format_02d (c : ascii) (n : Z) :
  Str.contains c "-0123456789" = false ->
  Str.contains c (format_02d n) = false.
Proof.
  intros Hc. cbn [Str.contains] in Hc.
  destruct (Ascii.eqb "-" c) eqn:Em; [discriminate Hc |].
  assert (Hs : Str.contains c (str_int n) = false).
  { unfold str_int. destruct (Z.to_int n); cbn [NilEmpty.string_of_int Str.contains];
      rewrite ?Em; now apply contains_string_of_uint. }
  unfold format_02d. destruct (String.length (str_int n) <? 2)%nat; [|exact Hs].
  cbn [String.append Str.contains].
  destruct (Ascii.eqb "0" c) eqn:E0; [discriminate Hc | exact Hs].
Qed.

Lemma length_format_02d (n : Z) :
  2 <= String.length (format_02d n)
  /\ ((0 <= n <= 99)%Z -> String.length (format_02d n) = 2).
Proof.
  split.
  - unfold format_02d. destruct (String.length (str_int n) <? 2)%nat eqn:E.
    + apply Nat.ltb_lt in E. cbn [String.append String.length].
      unfold str_int in *.
      destruct (to_int_digits n) as [(d & Hd & Hnil) | (d & Hd & Hnil)];
        rewrite Hd in *; cbn [NilEmpty.string_of_int String.length] in *;
        pose proof (string_of_uint_nonempty d Hnil); lia.
    + apply Nat.ltb_ge in E. exact E.
  - intros Hn. assert (Hk : exists k : nat, k < 100 /\ n = Z.of_nat k).
    { exists (Z.to_nat n). split; lia. }
    destruct Hk as (k & Hk & ->).
    do 100 (destruct k as [|k]; [vm_compute; reflexivity |]). lia.
Qed.

(** The text of an [ExternalId] tells the identifier: two identifiers with
    the same [repr] have the same namespace and the same value. *)
Theorem ExternalId_repr_injective (a b : ExternalId) :
  ExternalId_repr a = ExternalId_repr b <-> a = b.
Proof.
  split; [|now intros ->].
  destruct a as [na va], b as [nb vb]. unfold ExternalId_repr. cbn [namespace value].
  destruct na, nb; cbn; intros H; try discriminate H; now injection H as ->.
Qed.

(** The [repr] of an entity shows at most the first 32 characters of the
    title: its length is that of the class name and the key, the shown
    part of the title and the four delimiters, and a title of at most 32
    characters is shown whole. *)
Theorem Entity_repr_cuts_title (self : Entity) :
  String.length (Entity_repr self)
  = String.length (class_name self) + String.length (key self)
    + Nat.min 32 (String.length (title self)) + 4
  /\ (String.length (title self) <= 32 ->
      Entity_repr self
      = "<" +:+ class_name self +:+ ":" +:+ key self +:+ ":" +:+ title self +:+ ">").
Proof.
  unfold Entity_repr. split.
  - rewrite !length_append, length_str_take. cbn [String.length]. lia.
  - intros H. now rewrite str_take_short.
Qed.

Lemma tags_inj (s1 e1 s2 e2 : Z) :
  format_02d s1 +:+ "E" +:+ format_02d e1 +:+ ">"
  = format_02d s2 +:+ "E" +:+ format_02d e2 +:+ ">" ->
  s1 = s2 /\ e1 = e2.
Proof.
  intros H.
  apply (Str.first_unique "E") in H; try (now apply contains_format_02d).
  destruct H as [Hs He].
  apply (Str.first_unique ">") in He; try (now apply contains_format_02d).
  destruct He as [He _]. split; now apply format_02d_inj.
Qed.

(** The [repr] of an episode tells its place: episodes with the same class
    name, key and shown show title, and the same [repr], have the same
    season index and the same index, whatever integers these are. *)
Theorem Episode_repr_tells_indices (a b : Episode) :
  class_name (episode_entity a) = class_name (episode_entity b) ->
  key (episode_entity a) = key (episode_entity b) ->
  str_take 32 (episode_show_title a) = str_take 32 (episode_show_title b) ->
  Episode_repr a = Episode_repr b ->
  season_index a = season_index b /\ index a = index b.
Proof.
  unfold Episode_repr. intros -> -> -> H.
  do 8 apply append_inj_l in H. now apply tags_inj.
Qed.

(** The same for seasons and their index. *)
Theorem Season_repr_tells_index (a b : Season) :
  class_name (season_entity a) = class_name (season_entity b) ->
  key (season_entity a) = key (season_entity b) ->
  str_take 32 (season_show_title a) = str_take 32 (season_show_title b) ->
  Season_repr a = Season_repr b ->
  season_number a = season_number b.
Proof.
  unfold Season_repr. intros -> -> -> H.
  do 8 apply append_inj_l in H.
  apply (Str.first_unique ">") in H; try (now apply contains_format_02d).
  destruct H as [H _]. now apply format_02d_inj.
Qed.

(** With both indices between 0 and 99 the tag [SxxEyy] has its six
    characters, so the [repr] of an episode is eleven characters longer
    than class name, key and shown show title. *)
Theorem Episode_repr_length (self : Episode) :
  (0 <= season_index self <= 99)%Z ->
  (0 <= index self <= 99)%Z ->
  String.length (Episode_repr self)
  = String.length (class_name (episode_entity self))
    + String.length (key (episode_entity self))
    + Nat.min 32 (String.length (episode_show_title self)) + 11.
Proof.
  intros Hs Hi. unfold Episode_repr.
  rewrite !length_append, length_str_take.
  rewrite (proj2 (length_format_02d _) Hs), (proj2 (length_format_02d _) Hi).
  cbn [String.length]. lia.
Qed.

(** *** The representations on samples *)

Definition episode_7 : Episode :=
  mkEpisode (mkEntity "PlexEpisode" "1207" "Pilot") "Cowboy Bebop" 1 7.

Definition episode_12 : Episode :=
  mkEpisode (mkEntity "PlexEpisode" "1207" "Finale") "Cowboy Bebop" 1 12.

Lemma Episode_repr_sample :
  Episode_repr episode_7 = "<PlexEpisode:1207:Cowboy Bebop:S01E07>"
  /\ Episode_repr (mkEpisode (mkEntity "E" "k" "t") "Show" (-1) 123)
     = "<E:k:Show:S-1E123>"
  /\ Season_repr (mkSeason (mkEntity "S" "k" "t")
                    "A title that is longer than thirty-two characters" 0)
     = "<S:k:A title that is longer than thir:S00>".
Proof. repeat split; reflexivity. Qed.

Lemma Episode_repr_same_place :
  (key (episode_entity episode_7)
   = key (episode_entity (mkEpisode (mkEntity "PlexEpisode" "1207" "Asteroid Blues")
                            "Cowboy Bebop" 1 7))
   /\ Episode_repr episode_7
      = Episode_repr (mkEpisode (mkEntity "PlexEpisode" "1207" "Asteroid Blues")
                        "Cowboy Bebop" 1 7))
  /\ index episode_7
     = index (mkEpisode (mkEntity "PlexEpisode" "1207" "Asteroid Blues")
                "Cowboy Bebop" 1 7).
Proof.
  split; [split; reflexivity |].
  exact (proj2 (Episode_repr_tells_indices episode_7
                  (mkEpisode (mkEntity "PlexEpisode" "1207" "Asteroid Blues")
                     "Cowboy Bebop" 1 7)
                  eq_refl eq_refl eq_refl eq_refl)).
Defined.

Lemma Season_repr_same_index :
  Season_repr (mkSeason (mkEntity "S" "k" "t") "Show" 3)
  = Season_repr (mkSeason (mkEntity "S" "k" "u") "Show" 3)
  /\ season_number (mkSeason (mkEntity "S" "k" "t") "Show" 3)
     = season_number (mkSeason (mkEntity "S" "k" "u") "Show" 3).
Proof.
  split; [reflexivity |].
  exact (Season_repr_tells_index (mkSeason (mkEntity "S" "k" "t") "Show" 3)
           (mkSeason (mkEntity "S" "k" "u") "Show" 3)
           eq_refl eq_refl eq_refl eq_refl).
Defined.

Lemma Episode_repr_length_sample :
  ((0 <= season_index episode_12 <= 99)%Z /\ (0 <= index episode_12 <= 99)%Z)
  /\ String.length (Episode_repr episode_12) = 38.
Proof.
  assert (Hs : (0 <= season_index episode_12 <= 99)%Z) by (simpl; lia).
  assert (Hi : (0 <= index episode_12 <= 99)%Z) by (simpl; lia).
  split; [split; assumption |].
  exact (Episode_repr_length episode_12 Hs Hi).
Defined.

End Library.
